(** * Credential rotation in [services/apiClient.ts]

    A shallow embedding of [getTokens] and [fetchWithTokenRotation] and the
    properties of the rotation protocol.

    The browser and the two imported services are collaborators of the
    dispatcher: [sessionStorage], [JSON], [fetch], [getVeoAuthTokens] and
    [addLogEntry].  Their effects are threaded through an explicit [World]
    (the storage slot, the entries handed to the audit sink, the requests
    issued) by a small state-and-exception monad; their answers are the
    fields of a [Collaborators] record, over which every theorem is
    universally quantified.

    The embedding reads the code at its declared types and at the contracts
    of the platform:
    - the elements of the cached array and of the refreshed list are
      [{ token: string; createdAt: string }], as [getTokens] declares;
    - [requestBody] is a JSON value, which [JSON.stringify] serialises
      without throwing;
    - [fetch] and [response.json()] reject with [Error] instances
      ([TypeError], [SyntaxError], [DOMException]);
    - a response body holds no object with a key [toString] of its own,
      so that [new Error] renders every object as [[object Object]];
    - [sessionStorage] reads and writes do not fail;
    - one dispatch runs at a time: nothing else touches the storage slot
      between two of its steps.
    [console.log] and [console.error] write to the developer console only
    and are left out. *)

From Stdlib Require Import String Ascii List Arith Bool Lia DecimalString.
Import ListNotations.
Open Scope string_scope.
Open Scope nat_scope.

Set Implicit Arguments.
Set Warnings "-register-all".

(* ------------------------------------------------------------------ *)
(** ** JavaScript strings *)

(** A [string] stands for a JavaScript string, one [ascii] per code unit. *)

Fixpoint string_drop (n : nat) (s : string) : string :=
  match n, s with
  | O, _ => s
  | S _, EmptyString => EmptyString
  | S m, String _ rest => string_drop m rest
  end.

(** [s.slice(-k)] for [k > 0]: the relative start [-k] is negative, so the
    slice starts at [max (length s - k) 0] and runs to the end. *)
Definition slice_from_end (k : nat) (s : string) : string :=
  string_drop (String.length s - k) s.

(** Template-literal rendering of a non-negative integer. *)
Definition decimal (n : nat) : string :=
  NilZero.string_of_uint (Nat.to_uint n).

(** [s.startsWith(p)] *)
Fixpoint starts_with (p s : string) : bool :=
  match p with
  | EmptyString => true
  | String a p' =>
      match s with
      | EmptyString => false
      | String b s' => Ascii.eqb a b && starts_with p' s'
      end
  end.

(** [s.includes(p)]: does [p] occur in [s] as a contiguous substring? *)
Fixpoint is_infix (p s : string) : bool :=
  starts_with p s ||
  match s with
  | EmptyString => false
  | String _ rest => is_infix p rest
  end.

(* ------------------------------------------------------------------ *)
(** ** JSON values as the response body delivers them *)

(** The result of [response.json()].  A number carries its JavaScript
    [ToString] rendering (["0"] for zero), which is all the dispatcher can
    observe of it. *)
Inductive JsonValue : Type :=
| JNull
| JBool (b : bool)
| JNumber (rendering : string)
| JString (s : string)
| JArray (items : list JsonValue)
| JObject (fields : list (string * JsonValue)).

(** Property read [o.key] on an object's own fields. *)
Fixpoint lookup_field (key : string) (fields : list (string * JsonValue))
  : option JsonValue :=
  match fields with
  | [] => None
  | (k, v) :: rest => if String.eqb k key then Some v else lookup_field key rest
  end.

(** [v.key] for a value [v] that is neither [null] nor [undefined]; [None]
    is [undefined].  Primitives and arrays have no property named [error] or
    [message]. *)
Definition get_property (key : string) (v : JsonValue) : option JsonValue :=
  match v with
  | JObject fields => lookup_field key fields
  | _ => None
  end.

(** JavaScript truthiness, as [||] tests it. *)
Definition truthy (v : JsonValue) : bool :=
  match v with
  | JNull => false
  | JBool b => b
  | JNumber r => negb (String.eqb r "0")
  | JString s => negb (String.eqb s "")
  | JArray _ => true
  | JObject _ => true
  end.

(** [a || b] where either side may be [undefined]. *)
Definition js_or (a : option JsonValue) (b : option JsonValue)
  : option JsonValue :=
  match a with
  | Some v => if truthy v then a else b
  | None => b
  end.

(** [ToString], as [new Error(v)] applies it to its argument. *)
Fixpoint ToString (v : JsonValue) : string :=
  match v with
  | JNull => "null"
  | JBool true => "true"
  | JBool false => "false"
  | JNumber r => r
  | JString s => s
  | JArray items =>
      (fix join (l : list JsonValue) : string :=
         match l with
         | [] => ""
         | x :: rest =>
             let here := match x with JNull => "" | _ => ToString x end in
             match rest with
             | [] => here
             | _ :: _ => here ++ "," ++ join rest
             end
         end) items
  | JObject _ => "[object Object]"
  end.

(* ------------------------------------------------------------------ *)
(** ** Errors, credentials, audit entries, requests *)

(** An [Error] instance: its constructor name and its [message]. *)
Record JsError : Type := mkError {
  err_name : string;
  err_message : string
}.

(** [new Error(msg)] *)
Definition new_Error (msg : string) : JsError := mkError "Error" msg.

(** Anything a collaborator may throw: an [Error] instance, or some other
    value (the code only ever asks [instanceof Error] of it). *)
Inductive Thrown : Type :=
| ThrownError (e : JsError)
| ThrownOther.

(** [{ token: string; createdAt: string }] *)
Record Credential : Type := mkCredential {
  token : string;
  createdAt : string
}.

Inductive Status : Type := Success | Error.

(** The argument of [addLogEntry]. *)
Record LogEntry : Type := mkLogEntry {
  model : string;
  prompt : string;
  output : string;
  tokenCount : nat;
  status : Status;
  error : option string
}.

(** The arguments of one [fetch] call. *)
Record Request : Type := mkRequest {
  req_url : string;
  req_method : string;
  req_content_type : string;
  req_authorization : string;
  req_body : string
}.

(** A [Response]: its status and what [response.json()] settles to. *)
Record Response : Type := mkResponse {
  resp_status : nat;
  resp_json : JsError + JsonValue
}.

(** [response.ok]: the status is in the range 200-299. *)
Definition resp_ok (r : Response) : bool :=
  (200 <=? resp_status r) && (resp_status r <=? 299).

Inductive FetchOutcome : Type :=
| FetchRejects (e : JsError)
| FetchResponds (r : Response).

(** What [JSON.parse] makes of the cached text, read at the type [getTokens]
    declares for it: an array of credentials, or some value that is not an
    array. *)
Inductive Parsed : Type :=
| ParsedArray (creds : list Credential)
| ParsedOther.

(** How [await getVeoAuthTokens()] settles: a list, a falsy value
    ([None]), or a rejection. *)
Inductive RefreshOutcome : Type :=
| RefreshReturns (newTokens : option (list Credential))
| RefreshThrows (e : Thrown).

(** [{ data, successfulToken }] *)
Record DispatchResult : Type := mkResult {
  data : JsonValue;
  successfulToken : string
}.

(* ------------------------------------------------------------------ *)
(** ** The world and the collaborators *)

(** What a dispatch can change or leave behind: the session-storage slot
    ['veoAuthTokens'] ([None] when the key is absent), the entries handed to
    the audit sink and the requests handed to [fetch], both oldest first. *)
Record World : Type := mkWorld {
  veoAuthTokens : option string;
  auditLog : list LogEntry;
  requests : list Request
}.

(** The answers of the collaborators.
    - [JSON_parse text] is [None] when [JSON.parse] throws;
    - [JSON_stringify_tokens] and [JSON_stringify] are [JSON.stringify] on
      the refreshed list and on the request body;
    - [getVeoAuthTokens] is how the refresh settles (a dispatch calls it at
      most once);
    - [fetch] and [sink] see the calls made before the current one, so they
      may answer each call differently; [sink] is the behaviour of
      [addLogEntry], which returns normally ([None]) or throws;
    - [nullPropertyError key] is the [TypeError] the engine raises when
      property [key] of [null] is read. *)
Record Collaborators : Type := mkCollaborators {
  JSON_parse : string -> option Parsed;
  JSON_stringify_tokens : list Credential -> string;
  JSON_stringify : JsonValue -> string;
  getVeoAuthTokens : RefreshOutcome;
  fetch : list Request -> Request -> FetchOutcome;
  sink : list LogEntry -> LogEntry -> option Thrown;
  nullPropertyError : string -> JsError
}.

(** A statement either completes with a value or throws; the world keeps
    every effect made up to that point. *)
Inductive Completion (A : Type) : Type :=
| Returned (a : A)
| Threw (t : Thrown).
Arguments Threw {A} t.

Definition M (A : Type) : Type := World -> Completion A * World.

Definition ret {A} (a : A) : M A := fun w => (Returned a, w).

Definition throw {A} (t : Thrown) : M A := fun w => (Threw t, w).

Definition bind {A B} (m : M A) (k : A -> M B) : M B :=
  fun w =>
    match m w with
    | (Returned a, w') => k a w'
    | (Threw t, w') => (Threw t, w')
    end.

(** [try { m } catch (e) { handler e }] *)
Definition try_catch {A} (m : M A) (handler : Thrown -> M A) : M A :=
  fun w =>
    match m w with
    | (Returned a, w') => (Returned a, w')
    | (Threw t, w') => handler t w'
    end.

Declare Scope js_scope.
Delimit Scope js_scope with js.
Notation "x <- m ;; k" := (bind m (fun x => k))
  (at level 61, m at next level, right associativity) : js_scope.
Notation "m ;; k" := (bind m (fun _ => k))
  (at level 61, right associativity) : js_scope.
Open Scope js_scope.

Definition sessionStorage_getItem : M (option string) :=
  fun w => (Returned (veoAuthTokens w), w).

Definition sessionStorage_setItem (value : string) : M unit :=
  fun w => (Returned tt, mkWorld (Some value) (auditLog w) (requests w)).

(** One call of the audit sink: the entry is handed over, then the sink
    returns or throws. *)
Definition addLogEntry (C : Collaborators) (entry : LogEntry) : M unit :=
  fun w =>
    let w' := mkWorld (veoAuthTokens w) (auditLog w ++ [entry])%list (requests w) in
    match sink C (auditLog w) entry with
    | None => (Returned tt, w')
    | Some t => (Threw t, w')
    end.

(* ------------------------------------------------------------------ *)
(** ** [getVeoProxyUrl] and [getImagenProxyUrl] (lines 4-22) *)

(** [process.env.NODE_ENV] is a string or [undefined] ([None]); the test is
    the strict equality [=== 'production']. *)
Definition getVeoProxyUrl (NODE_ENV : option string) : string :=
  match NODE_ENV with
  | Some env => if String.eqb env "production" then "https://veo.monoklix.com" else ""
  | None => ""
  end.

Definition getImagenProxyUrl (NODE_ENV : option string) : string :=
  match NODE_ENV with
  | Some env => if String.eqb env "production" then "https://gem.monoklix.com" else ""
  | None => ""
  end.

(* ------------------------------------------------------------------ *)
(** ** [getTokens] (lines 25-38) *)

(** The cached text is used when it is truthy, parses, and parses to a
    non-empty array; a parse error is caught at line 33 and, like every
    other case, ends in [return []]. *)
Definition getTokens (C : Collaborators) : M (list Credential) :=
  tokensJSON <- sessionStorage_getItem ;;
  match tokensJSON with
  | Some text =>
      if negb (String.eqb text "") then
        match JSON_parse C text with
        | Some (ParsedArray parsed) =>
            if 0 <? length parsed then ret parsed else ret []
        | Some ParsedOther => ret []
        | None => ret []
        end
      else ret []
  | None => ret []
  end.

(* ------------------------------------------------------------------ *)
(** ** The audit entries [fetchWithTokenRotation] writes *)

(** Line 61: the session holds no tokens. *)
Definition entry_session_empty (logContext : string) : LogEntry :=
  mkLogEntry logContext "Auth Token Refresh"
    "No tokens found in session. Attempting to re-fetch from database."
    0 Success None.

(** Line 74: the refresh delivered [n] tokens. *)
Definition entry_refetched (logContext : string) (n : nat) : LogEntry :=
  mkLogEntry logContext "Auth Token Refresh"
    ("Successfully re-fetched " ++ decimal n ++ " tokens.")
    0 Success None.

(** [e instanceof Error ? e.message : 'Unknown error'] *)
Definition refetch_error_text (e : Thrown) : string :=
  match e with
  | ThrownError err => err_message err
  | ThrownOther => "Unknown error"
  end.

(** Line 84: the refresh threw. *)
Definition entry_refetch_failed (logContext : string) (e : Thrown) : LogEntry :=
  mkLogEntry logContext "Auth Token Refresh"
    ("Failed to re-fetch tokens: " ++ refetch_error_text e)
    0 Error (Some (refetch_error_text e)).

(** Line 106: attempt [i] (0-indexed) starts. *)
Definition entry_attempt (logContext : string) (i : nat)
    (currentAuthToken : string) : LogEntry :=
  mkLogEntry logContext
    ("Attempting " ++ logContext ++ " with token #" ++ decimal (i + 1))
    ("Using token ending in ..." ++ slice_from_end 6 currentAuthToken)
    0 Success None.

(** Line 140: attempt [i] failed. *)
Definition entry_failed (logContext : string) (i : nat)
    (errorMessage : string) : LogEntry :=
  mkLogEntry logContext
    ("Token #" ++ decimal (i + 1) ++ " failed")
    errorMessage
    0 Error (Some errorMessage).

(** Line 151: another token remains. *)
Definition entry_retry (logContext : string) : LogEntry :=
  mkLogEntry logContext "Retrying with next token..."
    "Fallback mechanism initiated."
    0 Success None.

(** Line 163: every token failed. *)
Definition entry_exhausted (logContext : string) (lastError : JsError)
  : LogEntry :=
  mkLogEntry logContext "All available auth tokens failed."
    ("Final error: " ++ err_message lastError)
    0 Error (Some (err_message lastError)).

(* ------------------------------------------------------------------ *)
(** ** [fetchWithTokenRotation] (lines 48-172) *)

(** The truth value of [specificToken]: an absent argument and the empty
    string are both falsy. *)
Definition provided (specificToken : option string) : bool :=
  match specificToken with
  | Some s => negb (String.eqb s "")
  | None => false
  end.

(** Lines 59-93, entered with [tokens] empty; the result is the value of
    [tokens] afterwards.  The assignment [tokens = newTokens] of line 72
    comes before the only statement that can still leave the [try] block,
    so it stands whether or not the [catch] clause runs. *)
Definition refetch (C : Collaborators) (logContext : string)
  : M (list Credential) :=
  addLogEntry C (entry_session_empty logContext) ;;
  let on_catch (e : Thrown) : M unit :=
    addLogEntry C (entry_refetch_failed logContext e) in
  match getVeoAuthTokens C with
  | RefreshThrows e => on_catch e ;; ret []
  | RefreshReturns None => ret []
  | RefreshReturns (Some newTokens) =>
      if 0 <? length newTokens then
        sessionStorage_setItem (JSON_stringify_tokens C newTokens) ;;
        try_catch
          (addLogEntry C (entry_refetched logContext (length newTokens)))
          on_catch ;;
        ret newTokens
      else ret []
  end.

(** Lines 116-123: one [fetch] call. *)
Definition send (C : Collaborators) (endpoint : string)
    (requestBody : JsonValue) (currentAuthToken : string) : M FetchOutcome :=
  fun w =>
    let r := mkRequest endpoint "POST" "application/json"
               ("Bearer " ++ currentAuthToken) (JSON_stringify C requestBody) in
    (Returned (fetch C (requests w) r),
     mkWorld (veoAuthTokens w) (auditLog w) (requests w ++ [r])%list).

(** [obj?.message] *)
Definition optional_message (obj : option JsonValue) : option JsonValue :=
  match obj with
  | None => None
  | Some JNull => None
  | Some v => get_property "message" v
  end.

(** Line 129, for a body other than [null]:
    [data.error?.message || data.message || `API call failed (${status})`] *)
Definition errorMessage_of (status : nat) (body : JsonValue) : JsonValue :=
  let generic := JString ("API call failed (" ++ decimal status ++ ")") in
  match js_or (js_or (optional_message (get_property "error" body))
                     (get_property "message" body))
              (Some generic) with
  | Some v => v
  | None => generic
  end.

(** Lines 115-134, the [try] block of one attempt.  Everything that leaves
    it by an exception is an [Error] instance (a rejected [fetch], a rejected
    [response.json()], reading [error] of a [null] body, the [Error] of line
    130), so the block is given as the error caught or the value returned. *)
Definition attempt (C : Collaborators) (endpoint : string)
    (requestBody : JsonValue) (currentAuthToken : string)
  : M (JsError + DispatchResult) :=
  outcome <- send C endpoint requestBody currentAuthToken ;;
  match outcome with
  | FetchRejects e => ret (inl e)
  | FetchResponds response =>
      match resp_json response with
      | inl e => ret (inl e)
      | inr body =>
          if negb (resp_ok response) then
            match body with
            | JNull => ret (inl (nullPropertyError C "error"))
            | _ =>
                ret (inl (new_Error
                            (ToString (errorMessage_of (resp_status response) body))))
            end
          else ret (inr (mkResult body currentAuthToken))
      end
  end.

(** Lines 100-171: the loop from index [i] over the tokens not yet tried,
    [n] being [tokens.length], and the statements after it.  What the
    [catch] clause receives is an [Error] instance, so [errorMessage] is
    its [message].  [lastError] is [null] until an attempt has failed;
    reading [message] of [null] at line 166 would throw. *)
Fixpoint rotate (C : Collaborators) (endpoint : string)
    (requestBody : JsonValue) (logContext : string) (n i : nat)
    (remaining : list Credential) (lastError : option JsError)
  : M DispatchResult :=
  match remaining with
  | [] =>
      match lastError with
      | Some e =>
          addLogEntry C (entry_exhausted logContext e) ;;
          throw (ThrownError e)
      | None => throw (ThrownError (nullPropertyError C "message"))
      end
  | credential :: rest =>
      let currentAuthToken := token credential in
      addLogEntry C (entry_attempt logContext i currentAuthToken) ;;
      r <- attempt C endpoint requestBody currentAuthToken ;;
      match r with
      | inr result => ret result
      | inl error =>
          let errorMessage := err_message error in
          addLogEntry C (entry_failed logContext i errorMessage) ;;
          (if i <? n - 1 then addLogEntry C (entry_retry logContext) else ret tt) ;;
          rotate C endpoint requestBody logContext n (S i) rest (Some error)
      end
  end.

(** The error of line 97. *)
Definition no_tokens_error (logContext : string) : JsError :=
  new_Error ("Auth Token is required for " ++ logContext ++
             ". Please set it via the Key icon in the header.").

(** Line 56: a truthy [specificToken] is the only candidate; otherwise the
    session cache supplies the candidates. *)
Definition initial_tokens (C : Collaborators) (specificToken : option string)
  : M (list Credential) :=
  match specificToken with
  | Some s =>
      if provided specificToken then ret [mkCredential s "N/A"] else getTokens C
  | None => getTokens C
  end.

(** Lines 56-93: the credential list the loop runs over. *)
Definition resolve_tokens (C : Collaborators) (logContext : string)
    (specificToken : option string) : M (list Credential) :=
  tokens <- initial_tokens C specificToken ;;
  if (length tokens =? 0) && negb (provided specificToken)
  then refetch C logContext
  else ret tokens.

Definition fetchWithTokenRotation (C : Collaborators) (endpoint : string)
    (requestBody : JsonValue) (logContext : string)
    (specificToken : option string) : M DispatchResult :=
  tokens <- resolve_tokens C logContext specificToken ;;
  if length tokens =? 0
  then throw (ThrownError (no_tokens_error logContext))
  else rotate C endpoint requestBody logContext (length tokens) 0 tokens None.

(* ------------------------------------------------------------------ *)
(** ** Vocabulary for the statements *)

(** An audit sink that returns normally from every call. *)
Definition returns_normally (C : Collaborators) : Prop :=
  forall history entry, sink C history entry = None.

(** The request line 116 builds for a token. *)
Definition request_for (C : Collaborators) (endpoint : string)
    (requestBody : JsonValue) (currentAuthToken : string) : Request :=
  mkRequest endpoint "POST" "application/json"
    ("Bearer " ++ currentAuthToken) (JSON_stringify C requestBody).

(** What the [try] block of an attempt makes of the answer to its request:
    the error it throws or the value it returns. *)
Definition settle (C : Collaborators) (currentAuthToken : string)
    (answer : FetchOutcome) : JsError + DispatchResult :=
  match answer with
  | FetchRejects e => inl e
  | FetchResponds response =>
      match resp_json response with
      | inl e => inl e
      | inr body =>
          if negb (resp_ok response) then
            match body with
            | JNull => inl (nullPropertyError C "error")
            | _ => inl (new_Error
                          (ToString (errorMessage_of (resp_status response) body)))
            end
          else inr (mkResult body currentAuthToken)
      end
  end.

(** A request succeeds when the status is OK and the body parses. *)
Definition succeeds (answer : FetchOutcome) : bool :=
  match answer with
  | FetchRejects _ => false
  | FetchResponds response =>
      resp_ok response &&
      match resp_json response with inr _ => true | inl _ => false end
  end.

(** The answer to the request of candidate [j] of [tokens], issued after
    the requests [before] and those of the candidates ahead of [j]. *)
Definition answer_at (C : Collaborators) (endpoint : string)
    (requestBody : JsonValue) (before : list Request)
    (tokens : list Credential) (j : nat) : option FetchOutcome :=
  match nth_error tokens j with
  | Some c =>
      Some (fetch C
              (before ++ map (fun c' => request_for C endpoint requestBody (token c'))
                             (firstn j tokens))%list
              (request_for C endpoint requestBody (token c)))
  | None => None
  end.

(** The entries of one failed attempt (lines 106, 140 and 151). *)
Definition failure_entries (logContext : string) (n i : nat)
    (currentAuthToken : string) (e : JsError) : list LogEntry :=
  ([entry_attempt logContext i currentAuthToken;
    entry_failed logContext i (err_message e)] ++
   (if i <? n - 1 then [entry_retry logContext] else []))%list.

(** The entries of a run of failed attempts starting at index [i]. *)
Fixpoint failures_log (logContext : string) (n i : nat)
    (attempts : list (string * JsError)) : list LogEntry :=
  match attempts with
  | [] => []
  | (tok, e) :: rest =>
      (failure_entries logContext n i tok e ++
       failures_log logContext n (S i) rest)%list
  end.

(** The kinds of entry the loop writes, told apart by their [prompt]. *)
Definition is_attempt_start (entry : LogEntry) : bool :=
  starts_with "Attempting " (prompt entry).
Definition is_attempt_failure (entry : LogEntry) : bool :=
  starts_with "Token #" (prompt entry).
Definition is_retry (entry : LogEntry) : bool :=
  String.eqb (prompt entry) "Retrying with next token...".
Definition is_summary (entry : LogEntry) : bool :=
  String.eqb (prompt entry) "All available auth tokens failed.".

Definition count (p : LogEntry -> bool) (log : list LogEntry) : nat :=
  length (filter p log).

(* ------------------------------------------------------------------ *)
(** ** The session cache and the refresh *)

(** The cached text yields no credential: the key is missing, the text is
    empty, it is not JSON, it is JSON but no array, or it is an empty
    array. *)
Inductive unusable (C : Collaborators) : option string -> Prop :=
| cache_missing : unusable C None
| cache_blank : unusable C (Some "")
| cache_malformed (text : string) :
    JSON_parse C text = None -> unusable C (Some text)
| cache_not_an_array (text : string) :
    JSON_parse C text = Some ParsedOther -> unusable C (Some text)
| cache_empty_array (text : string) :
    JSON_parse C text = Some (ParsedArray []) -> unusable C (Some text).

(** The refresh delivers no credential: it throws, or it returns a falsy
    value or an empty list. *)
Definition yields_nothing (refresh : RefreshOutcome) : Prop :=
  match refresh with
  | RefreshThrows _ => True
  | RefreshReturns None => True
  | RefreshReturns (Some newTokens) => newTokens = []
  end.

(** Two worlds with the same audit trail and the same requests, whose
    storage slots are equal or still hold [slot] and [slot']. *)
Definition alike (slot slot' : option string) (w w' : World) : Prop :=
  auditLog w = auditLog w' /\
  requests w = requests w' /\
  (veoAuthTokens w = veoAuthTokens w' \/
   (veoAuthTokens w = slot /\ veoAuthTokens w' = slot')).

(** A computation that completes the same way in alike worlds and leaves
    them alike: it does not read the storage slot. *)
Definition blind (slot slot' : option string) {A} (m : M A) : Prop :=
  forall w w', alike slot slot' w w' ->
    fst (m w) = fst (m w') /\ alike slot slot' (snd (m w)) (snd (m w')).

(* ------------------------------------------------------------------ *)
(** ** Audit sinks *)

(** The collaborators [C] with [s] for audit sink. *)
Definition with_sink (C : Collaborators)
    (s : list LogEntry -> LogEntry -> option Thrown) : Collaborators :=
  mkCollaborators (JSON_parse C) (JSON_stringify_tokens C) (JSON_stringify C)
    (getVeoAuthTokens C) (fetch C) s (nullPropertyError C).

(** The sink that does nothing. *)
Definition no_op_sink (history : list LogEntry) (entry : LogEntry)
  : option Thrown := None.

(** The entry of line 74, the one call of the sink inside a [try] block:
    its prompt is [Auth Token Refresh] and its output begins with
    [Successfully re-fetched].  No other entry of the dispatcher has both. *)
Definition is_refetched (entry : LogEntry) : bool :=
  String.eqb (prompt entry) "Auth Token Refresh" &&
  starts_with "Successfully re-fetched " (output entry).

(** An audit sink that returns normally from every call made outside the
    [try] block of the refresh; on the entry of line 74 it may throw. *)
Definition returns_outside_the_try (C : Collaborators) : Prop :=
  forall history entry,
    is_refetched entry = false -> sink C history entry = None.

(** The sink that throws [t] on the entry of line 74 and returns on every
    other. *)
Definition sink_failing_at_line_74 (t : Thrown) (history : list LogEntry)
    (entry : LogEntry) : option Thrown :=
  if is_refetched entry then Some t else None.

(** Two worlds with the same storage slot and the same requests; their
    audit trails may differ. *)
Definition same_but_trail (w w' : World) : Prop :=
  veoAuthTokens w = veoAuthTokens w' /\ requests w = requests w'.

(** Two computations that complete the same way, from worlds that differ in
    their audit trails at most, and leave such worlds. *)
Definition agree {A} (m m' : M A) : Prop :=
  forall w w', same_but_trail w w' ->
    fst (m w) = fst (m' w') /\ same_but_trail (snd (m w)) (snd (m' w')).

(** The sink that throws [t] on every call. *)
Definition throwing_sink (t : Thrown) (history : list LogEntry)
    (entry : LogEntry) : option Thrown := Some t.

(* ------------------------------------------------------------------ *)
(** ** Expected entries and body fields *)

(** The error in [lastError] once the attempts [errors] have failed. *)
Definition last_of (lastError : option JsError) (errors : list JsError)
  : option JsError :=
  last (map Some errors) lastError.

(** The entries of a refresh (lines 61, 74 and 84). *)
Definition refresh_entries (C : Collaborators) (logContext : string)
  : list LogEntry :=
  entry_session_empty logContext ::
  match getVeoAuthTokens C with
  | RefreshThrows e => [entry_refetch_failed logContext e]
  | RefreshReturns None => []
  | RefreshReturns (Some newTokens) =>
      if 0 <? length newTokens
      then [entry_refetched logContext (length newTokens)]
      else []
  end.


(** The field of [body] reached by reading the keys of [path] in turn;
    [None] when one of them is not there. *)
Fixpoint field_at (path : list string) (body : JsonValue) : option JsonValue :=
  match path with
  | [] => Some body
  | key :: rest =>
      match get_property key body with
      | Some v => field_at rest v
      | None => None
      end
  end.

(** A field that is missing, or whose value is falsy. *)
Definition absent_or_falsy (field : option JsonValue) : Prop :=
  match field with
  | Some v => truthy v = false
  | None => True
  end.

(* ------------------------------------------------------------------ *)
(** ** Sample collaborators *)

Definition credential_A : Credential := mkCredential "A" "2024-05-01T08:00:00Z".
Definition credential_B : Credential := mkCredential "B" "2024-05-01T09:00:00Z".
Definition credential_C : Credential := mkCredential "C" "2024-05-01T10:00:00Z".

(** A parser that knows four texts and rejects every other. *)
Definition sample_parse (text : string) : option Parsed :=
  if (text =? "[A]")%string then Some (ParsedArray [credential_A])
  else if (text =? "[A,B]")%string
       then Some (ParsedArray [credential_A; credential_B])
  else if (text =? "[]")%string then Some (ParsedArray [])
  else if (text =? "null")%string then Some ParsedOther
  else None.

Definition quota_body : JsonValue :=
  JObject [("error", JObject [("message", JString "quota")])].

Definition ok_body : JsonValue := JObject [("ok", JBool true)].

(** A server that accepts token [C], answers token [A] with HTTP 500 and
    is out of reach for every other token. *)
Definition sample_server (history : list Request) (r : Request) : FetchOutcome :=
  if (req_authorization r =? "Bearer C")%string
  then FetchResponds (mkResponse 200 (inr ok_body))
  else if (req_authorization r =? "Bearer A")%string
       then FetchResponds (mkResponse 500 (inr quota_body))
  else FetchRejects (mkError "TypeError" "Failed to fetch").

Definition sample (refresh : RefreshOutcome)
    (s : list LogEntry -> LogEntry -> option Thrown) : Collaborators :=
  mkCollaborators sample_parse (fun _ => "[B,C]") (fun _ => "{}")
    refresh sample_server s
    (fun key => mkError "TypeError"
                  ("Cannot read properties of null (reading '" ++ key ++ "')")).

Definition refresh_B_C : RefreshOutcome :=
  RefreshReturns (Some [credential_B; credential_C]).

Definition refresh_down : RefreshOutcome :=
  RefreshThrows (ThrownError (mkError "Error" "database unreachable")).

Definition fresh_session : World := mkWorld None [] [].

(** The session after a refresh that stored [[B, C]]. *)
Definition refreshed_session : World :=
  mkWorld (Some "[B,C]")
    [entry_session_empty "VEO T2V"; entry_refetched "VEO T2V" 2] [].

(* ------------------------------------------------------------------ *)
(** ** Five statements as the specification words them *)

(** C9 as the specification words it: whatever the audit sink does, the
    dispatch completes as it does with the sink that does nothing. *)
Definition sink_never_matters : Prop :=
  forall (C : Collaborators) (s : list LogEntry -> LogEntry -> option Thrown)
         (endpoint logContext : string) (requestBody : JsonValue)
         (specificToken : option string) (w : World),
    fst (fetchWithTokenRotation (with_sink C s) endpoint requestBody
           logContext specificToken w)
    = fst (fetchWithTokenRotation (with_sink C no_op_sink) endpoint requestBody
             logContext specificToken w).

(** C4 as the specification words it, for the resolution step: whatever
    string is supplied as pinned credential, the resolved list is that
    single credential and the world is untouched. *)
Definition every_pin_bypasses_rotation : Prop :=
  forall (C : Collaborators) (logContext pinned : string) (w : World),
    resolve_tokens C logContext (Some pinned) w
    = (Returned [mkCredential pinned "N/A"], w).

(** C6 as the specification words it: when all [n] candidates fail, the
    entries the rotation adds are [n] attempt-failure entries and one
    summary entry, and nothing else. *)
Definition one_entry_per_failed_attempt : Prop :=
  forall (C : Collaborators) (endpoint logContext : string)
         (requestBody : JsonValue) (specificToken : option string)
         (w0 w1 : World) (tokens : list Credential),
    returns_normally C ->
    resolve_tokens C logContext specificToken w0 = (Returned tokens, w1) ->
    tokens <> [] ->
    (forall j o, answer_at C endpoint requestBody (requests w0) tokens j = Some o ->
                 succeeds o = false) ->
    exists new : list LogEntry,
      auditLog (snd (fetchWithTokenRotation C endpoint requestBody logContext
                       specificToken w0))
      = (auditLog w1 ++ new)%list /\
      count is_attempt_failure new = length tokens /\
      count is_summary new = 1 /\
      length new = length tokens + 1.

(** C5 as the specification words it: the error caught for a failed status
    has the nested [error.message] of the body for message when that field
    is present, else the top-level [message] when present, else a text that
    shows the status code. *)
Definition message_comes_from_the_body : Prop :=
  forall (C : Collaborators) (tok : string) (response : Response) (e : JsError),
    resp_ok response = false ->
    settle C tok (FetchResponds response) = inl e ->
    let present (path : list string) :=
      match resp_json response with
      | inr body => field_at path body
      | inl _ => None
      end in
    match present ["error"; "message"], present ["message"] with
    | Some v, _ => err_message e = ToString v
    | None, Some v => err_message e = ToString v
    | None, None =>
        is_infix (decimal (resp_status response)) (err_message e) = true
    end.

(** C8 as the specification words it, for the attempt-start entry: whatever
    the token, it does not occur in the entry. *)
Definition tokens_are_always_redacted : Prop :=
  forall (logContext : string) (i : nat) (currentAuthToken : string),
    is_infix currentAuthToken
      (output (entry_attempt logContext i currentAuthToken)) = false.

(* ------------------------------------------------------------------ *)
(** ** Vocabulary for the properties of the whole dispatch *)

(** The world once [entry] has been handed to the audit sink. *)
Definition logged (w : World) (entry : LogEntry) : World :=
  mkWorld (veoAuthTokens w) (auditLog w ++ [entry])%list (requests w).

(** The cached text yields the credentials [cached]: it is not empty and
    parses to this array, which has an element. *)
Definition usable (C : Collaborators) (slot : option string)
    (cached : list Credential) : Prop :=
  exists text : string,
    slot = Some text /\ text <> "" /\
    JSON_parse C text = Some (ParsedArray cached) /\ cached <> [].

(** The collaborators [C] with [refresh] for the outcome of
    [getVeoAuthTokens]. *)
Definition with_refresh (C : Collaborators) (refresh : RefreshOutcome)
  : Collaborators :=
  mkCollaborators (JSON_parse C) (JSON_stringify_tokens C) (JSON_stringify C)
    refresh (fetch C) (sink C) (nullPropertyError C).

(** The candidates lines 56-93 arrive at; none when they are left by an
    exception. *)
Definition resolved (C : Collaborators) (logContext : string)
    (specificToken : option string) (w : World) : list Credential :=
  match fst (resolve_tokens C logContext specificToken w) with
  | Returned tokens => tokens
  | Threw _ => []
  end.

(** What the storage slot can hold after lines 56-93. *)
Definition slot_after (C : Collaborators) (specificToken : option string)
    (before after : option string) : Prop :=
  after = before \/
  (provided specificToken = false /\ unusable C before /\
   exists newTokens,
     getVeoAuthTokens C = RefreshReturns (Some newTokens) /\
     newTokens <> [] /\
     after = Some (JSON_stringify_tokens C newTokens)).

(** A request as line 116 sends it for one of [candidates]. *)
Definition sent_for (C : Collaborators) (endpoint : string)
    (requestBody : JsonValue) (candidates : list Credential) (r : Request)
  : Prop :=
  req_url r = endpoint /\
  req_method r = "POST" /\
  req_content_type r = "application/json" /\
  req_body r = JSON_stringify C requestBody /\
  exists c, In c candidates /\ req_authorization r = "Bearer " ++ token c.

(** The sample collaborators with a parser that also reads back the text
    the refresh stores. *)
Definition sample_reading_back (refresh : RefreshOutcome)
    (s : list LogEntry -> LogEntry -> option Thrown) : Collaborators :=
  mkCollaborators
    (fun text => if String.eqb text "[B,C]"
                 then Some (ParsedArray [credential_B; credential_C])
                 else sample_parse text)
    (fun _ => "[B,C]") (fun _ => "{}")
    refresh sample_server s
    (fun key => mkError "TypeError"
                  ("Cannot read properties of null (reading '" ++ key ++ "')")).

(** A sink that fails on the entry of line 74 alone. *)
Definition sink_failing_on_refetched (t : Thrown) (history : list LogEntry)
    (entry : LogEntry) : option Thrown :=
  if starts_with "Successfully re-fetched" (output entry) then Some t else None.

(* ------------------------------------------------------------------ *)
(** ** Single steps *)

Lemma addLogEntry_returns (C : Collaborators) (entry : LogEntry) (w : World) :
  returns_normally C ->
  addLogEntry C entry w =
  (Returned tt,
   mkWorld (veoAuthTokens w) (auditLog w ++ [entry])%list (requests w)).
Proof.
  intros quiet. unfold addLogEntry. now rewrite quiet.
Qed.

Lemma addLogEntry_cases (C : Collaborators) (entry : LogEntry) (w : World) :
  addLogEntry C entry w = (Returned tt, logged w entry) \/
  exists t, sink C (auditLog w) entry = Some t /\
            addLogEntry C entry w = (Threw t, logged w entry).
Proof.
  unfold addLogEntry, logged. destruct (sink C (auditLog w) entry) as [t |].
  - right. now exists t.
  - now left.
Qed.

Lemma attempt_run (C : Collaborators) (endpoint : string)
    (requestBody : JsonValue) (tok : string) (w : World) :
  attempt C endpoint requestBody tok w =
  (Returned (settle C tok
               (fetch C (requests w) (request_for C endpoint requestBody tok))),
   mkWorld (veoAuthTokens w) (auditLog w)
           (requests w ++ [request_for C endpoint requestBody tok])%list).
Proof.
  unfold attempt, bind, send, settle. fold (request_for C endpoint requestBody tok).
  destruct (fetch C (requests w) (request_for C endpoint requestBody tok))
    as [e | response]; [reflexivity |].
  destruct (resp_json response) as [e | body]; [reflexivity |].
  destruct (negb (resp_ok response)); [| reflexivity].
  destruct body; reflexivity.
Qed.

Lemma settle_success (C : Collaborators) (tok : string)
    (response : Response) (body : JsonValue) :
  resp_ok response = true ->
  resp_json response = inr body ->
  settle C tok (FetchResponds response) = inr (mkResult body tok).
Proof.
  intros ok parsed. unfold settle. now rewrite parsed, ok.
Qed.

Lemma settle_failure (C : Collaborators) (tok : string) (answer : FetchOutcome) :
  succeeds answer = false ->
  exists e, settle C tok answer = inl e.
Proof.
  unfold succeeds, settle. destruct answer as [e | response].
  - intros _. now exists e.
  - destruct (resp_json response) as [e | body].
    + intros _. now exists e.
    + rewrite andb_true_r. intros ->. cbn [negb].
      destruct body; eexists; reflexivity.
Qed.

(* ------------------------------------------------------------------ *)
(** ** The rotation loop under a sink that returns normally *)

Section Rotation.

Variable C : Collaborators.
Variables endpoint logContext : string.
Variable requestBody : JsonValue.
Hypothesis quiet : returns_normally C.

Let request_of (c : Credential) : Request :=
  request_for C endpoint requestBody (token c).

Lemma rotate_failed_attempt (n i : nat) (c : Credential)
    (rest : list Credential) (lastError : option JsError) (w : World)
    (e : JsError) :
  settle C (token c) (fetch C (requests w) (request_of c)) = inl e ->
  rotate C endpoint requestBody logContext n i (c :: rest) lastError w =
  rotate C endpoint requestBody logContext n (S i) rest (Some e)
    (mkWorld (veoAuthTokens w)
       (auditLog w ++ failure_entries logContext n i (token c) e)%list
       (requests w ++ [request_of c])%list).
Proof.
  intros caught. cbn [rotate]. unfold bind at 1.
  rewrite (addLogEntry_returns _ _ quiet). unfold bind at 1.
  rewrite attempt_run. cbn [requests veoAuthTokens auditLog].
  fold (request_of c). rewrite caught. unfold bind at 1.
  rewrite (addLogEntry_returns _ _ quiet). unfold bind at 1.
  unfold failure_entries. cbn [requests veoAuthTokens auditLog].
  destruct (i <? n - 1).
  - rewrite (addLogEntry_returns _ _ quiet).
    cbn [requests veoAuthTokens auditLog].
    now rewrite <- !app_assoc.
  - unfold ret. now rewrite <- !app_assoc, app_nil_r.
Qed.

Lemma rotate_successful_attempt (n i : nat) (c : Credential)
    (rest : list Credential) (lastError : option JsError) (w : World)
    (result : DispatchResult) :
  settle C (token c) (fetch C (requests w) (request_of c)) = inr result ->
  rotate C endpoint requestBody logContext n i (c :: rest) lastError w =
  (Returned result,
   mkWorld (veoAuthTokens w)
     (auditLog w ++ [entry_attempt logContext i (token c)])%list
     (requests w ++ [request_of c])%list).
Proof.
  intros returned. cbn [rotate]. unfold bind at 1.
  rewrite (addLogEntry_returns _ _ quiet). unfold bind at 1.
  rewrite attempt_run. cbn [requests veoAuthTokens auditLog].
  fold (request_of c). now rewrite returned.
Qed.

Lemma rotate_exhausted (n i : nat) (e : JsError) (w : World) :
  rotate C endpoint requestBody logContext n i [] (Some e) w =
  (Threw (ThrownError e),
   mkWorld (veoAuthTokens w)
     (auditLog w ++ [entry_exhausted logContext e])%list (requests w)).
Proof.
  cbn [rotate]. unfold bind. now rewrite (addLogEntry_returns _ _ quiet).
Qed.

Lemma last_default_irrelevant {A} (l : list A) :
  forall x d d', last (x :: l) d = last (x :: l) d'.
Proof.
  induction l as [| y l IH]; intros x d d'; [reflexivity |].
  change (last (x :: y :: l) d) with (last (y :: l) d).
  change (last (x :: y :: l) d') with (last (y :: l) d').
  apply IH.
Qed.

Lemma last_of_cons (lastError : option JsError) (e : JsError)
    (errors : list JsError) :
  last_of lastError (e :: errors) = last_of (Some e) errors.
Proof.
  unfold last_of. cbn [map]. destruct (map Some errors) as [| y l].
  - reflexivity.
  - change (last (Some e :: y :: l) lastError) with (last (y :: l) lastError).
    apply last_default_irrelevant.
Qed.

(** A prefix of failing candidates is walked through one by one: each
    issues its request, writes its entries and leaves its error behind. *)
Lemma rotate_failing_prefix (n : nat) (failing : list Credential) :
  forall (i : nat) (rest : list Credential) (lastError : option JsError)
         (w : World),
    (forall j o, answer_at C endpoint requestBody (requests w) failing j = Some o ->
                 succeeds o = false) ->
    exists errors : list JsError,
      length errors = length failing /\
      (forall j c e,
          nth_error failing j = Some c -> nth_error errors j = Some e ->
          option_map (settle C (token c))
            (answer_at C endpoint requestBody (requests w) failing j)
          = Some (inl e)) /\
      rotate C endpoint requestBody logContext n i (failing ++ rest) lastError w =
      rotate C endpoint requestBody logContext n (i + length failing) rest
        (last_of lastError errors)
        (mkWorld (veoAuthTokens w)
           (auditLog w ++
            failures_log logContext n i (combine (map token failing) errors))%list
           (requests w ++ map request_of failing)%list).
Proof.
  induction failing as [| c failing IH]; intros i rest lastError w fails.
  - exists []. split; [reflexivity |]. split.
    + intros j c e. now destruct j.
    + cbn. rewrite Nat.add_0_r, !app_nil_r. now destruct w.
  - destruct (settle_failure C (token c)
                (fetch C (requests w) (request_of c))) as [e caught].
    { apply (fails 0). unfold answer_at. cbn. now rewrite app_nil_r. }
    set (w1 := mkWorld (veoAuthTokens w)
                 (auditLog w ++ failure_entries logContext n i (token c) e)%list
                 (requests w ++ [request_of c])%list).
    destruct (IH (S i) rest (Some e) w1) as (errors & len & each & run).
    { intros j o at_j. apply (fails (S j)). revert at_j.
      unfold answer_at. cbn [nth_error firstn map requests w1].
      now rewrite <- app_assoc. }
    exists (e :: errors). split; [cbn; now rewrite len |]. split.
    + intros [| j] c' e' at_c at_e.
      * cbn in at_c, at_e. injection at_c as <-. injection at_e as <-.
        unfold answer_at. cbn. rewrite app_nil_r. fold (request_of c).
        now rewrite caught.
      * cbn in at_c, at_e. specialize (each j c' e' at_c at_e).
        revert each. unfold answer_at. cbn [nth_error firstn map requests w1].
        now rewrite <- app_assoc.
    + cbn [app]. rewrite (@rotate_failed_attempt n i c (failing ++ rest)%list lastError w e caught).
      fold w1. rewrite run. cbn [length]. rewrite Nat.add_succ_r.
      f_equal.
      * now rewrite last_of_cons.
      * unfold w1. cbn [veoAuthTokens auditLog requests map combine failures_log].
        now rewrite <- !app_assoc.
Qed.

End Rotation.

(* ------------------------------------------------------------------ *)
(** ** Facts about lists and about [answer_at] *)

Lemma last_of_nth (errors : list JsError) :
  forall lastError,
    last_of lastError errors =
    match nth_error errors (length errors - 1) with
    | Some e => Some e
    | None => lastError
    end.
Proof.
  induction errors as [| e errors IH]; intros lastError; [reflexivity |].
  rewrite last_of_cons, IH. destruct errors as [| e' errors]; [reflexivity |].
  cbn [length]. rewrite !Nat.sub_succ, !Nat.sub_0_r. cbn [nth_error].
  destruct (nth_error (e' :: errors) (length errors)) eqn:E; [reflexivity |].
  apply nth_error_None in E. cbn in E. lia.
Qed.

Lemma answer_at_prefix (C : Collaborators) (endpoint : string)
    (requestBody : JsonValue) (before : list Request)
    (front back : list Credential) (j : nat) :
  j < length front ->
  answer_at C endpoint requestBody before (front ++ back) j =
  answer_at C endpoint requestBody before front j.
Proof.
  intros inside. unfold answer_at.
  rewrite nth_error_app1 by exact inside.
  rewrite firstn_app. replace (j - length front) with 0 by lia.
  cbn [firstn]. now rewrite app_nil_r.
Qed.

Lemma answer_at_split (C : Collaborators) (endpoint : string)
    (requestBody : JsonValue) (before : list Request)
    (front back : list Credential) (c : Credential) :
  answer_at C endpoint requestBody before (front ++ c :: back) (length front) =
  Some (fetch C
          (before ++ map (fun c' => request_for C endpoint requestBody (token c'))
                         front)%list
          (request_for C endpoint requestBody (token c))).
Proof.
  unfold answer_at.
  rewrite nth_error_app2, Nat.sub_diag by lia. cbn [nth_error].
  rewrite firstn_app, Nat.sub_diag, firstn_all. cbn [firstn].
  now rewrite app_nil_r.
Qed.

Lemma firstn_succ_split {A} (front back : list A) (c : A) :
  firstn (S (length front)) (front ++ c :: back) = (front ++ [c])%list.
Proof.
  rewrite firstn_app, firstn_all2 by lia.
  replace (S (length front) - length front) with 1 by lia. reflexivity.
Qed.

(* ------------------------------------------------------------------ *)
(** ** Credential resolution issues no request *)

Lemma addLogEntry_requests (C : Collaborators) (entry : LogEntry) (w : World) :
  requests (snd (addLogEntry C entry w)) = requests w.
Proof.
  unfold addLogEntry. now destruct (sink C (auditLog w) entry).
Qed.

Lemma getTokens_run (C : Collaborators) (w : World) :
  exists tokens, getTokens C w = (Returned tokens, w).
Proof.
  unfold getTokens, bind, sessionStorage_getItem, ret.
  destruct (veoAuthTokens w) as [text |]; [| now exists []].
  destruct (negb (text =? "")%string); [| now exists []].
  destruct (JSON_parse C text) as [[parsed |] |]; try (now exists []).
  destruct (0 <? length parsed); eexists; reflexivity.
Qed.

Lemma refetch_requests (C : Collaborators) (logContext : string) (w : World) :
  requests (snd (refetch C logContext w)) = requests w.
Proof.
  unfold refetch, bind.
  pose proof (addLogEntry_requests C (entry_session_empty logContext) w) as first.
  destruct (addLogEntry C (entry_session_empty logContext) w) as [[[] | t] w1];
    cbn [snd] in first; [| exact first].
  destruct (getVeoAuthTokens C) as [[newTokens |] | e].
  - destruct (0 <? length newTokens); [| exact first].
    unfold bind, sessionStorage_setItem, try_catch.
    pose proof (addLogEntry_requests C
                  (entry_refetched logContext (length newTokens))
                  (mkWorld (Some (JSON_stringify_tokens C newTokens))
                     (auditLog w1) (requests w1))) as second.
    destruct (addLogEntry C (entry_refetched logContext (length newTokens)) _)
      as [[[] | t] w3]; cbn [snd requests] in second.
    + unfold ret. cbn [snd]. congruence.
    + pose proof (addLogEntry_requests C (entry_refetch_failed logContext t) w3)
        as third.
      destruct (addLogEntry C (entry_refetch_failed logContext t) w3)
        as [[[] | t'] w4]; unfold ret; cbn [snd] in third |- *; congruence.
  - exact first.
  - unfold bind.
    pose proof (addLogEntry_requests C (entry_refetch_failed logContext e) w1)
      as second.
    destruct (addLogEntry C (entry_refetch_failed logContext e) w1)
      as [[[] | t'] w2]; unfold ret; cbn [snd] in second |- *; congruence.
Qed.

Lemma initial_tokens_run (C : Collaborators) (specificToken : option string)
    (w : World) :
  exists tokens, initial_tokens C specificToken w = (Returned tokens, w).
Proof.
  unfold initial_tokens. destruct specificToken as [s |].
  - destruct (provided (Some s)); [now eexists | apply getTokens_run].
  - apply getTokens_run.
Qed.

Lemma resolve_tokens_requests (C : Collaborators) (logContext : string)
    (specificToken : option string) (w : World) :
  requests (snd (resolve_tokens C logContext specificToken w)) = requests w.
Proof.
  unfold resolve_tokens, bind.
  destruct (initial_tokens_run C specificToken w) as [tokens ->].
  destruct ((length tokens =? 0) && negb (provided specificToken)).
  - apply refetch_requests.
  - reflexivity.
Qed.

(* ------------------------------------------------------------------ *)
(** ** Success at candidate [k], and exhaustion *)

(** When every candidate fails the loop ends with the last error caught,
    after one request per candidate. *)
Lemma rotate_all_fail (C : Collaborators) (endpoint logContext : string)
    (requestBody : JsonValue) (tokens : list Credential) (w : World) :
  returns_normally C ->
  tokens <> [] ->
  (forall j o, answer_at C endpoint requestBody (requests w) tokens j = Some o ->
               succeeds o = false) ->
  exists (errors : list JsError) (e : JsError),
    length errors = length tokens /\
    (forall j c e',
        nth_error tokens j = Some c -> nth_error errors j = Some e' ->
        option_map (settle C (token c))
          (answer_at C endpoint requestBody (requests w) tokens j)
        = Some (inl e')) /\
    nth_error errors (length tokens - 1) = Some e /\
    rotate C endpoint requestBody logContext (length tokens) 0 tokens None w =
    (Threw (ThrownError e),
     mkWorld (veoAuthTokens w)
       (auditLog w ++
        failures_log logContext (length tokens) 0
          (combine (map token tokens) errors) ++
        [entry_exhausted logContext e])%list
       (requests w ++
        map (fun c => request_for C endpoint requestBody (token c)) tokens)%list).
Proof.
  intros quiet nonempty fails.
  destruct (rotate_failing_prefix endpoint logContext requestBody quiet
              (length tokens) tokens 0 [] None w fails)
    as (errors & len & each & run).
  rewrite app_nil_r in run.
  destruct (nth_error errors (length tokens - 1)) as [e |] eqn:at_last.
  - exists errors, e. repeat split; try assumption.
    rewrite run, last_of_nth, len, at_last.
    rewrite (rotate_exhausted _ _ _ quiet).
    cbn [veoAuthTokens auditLog requests]. now rewrite <- app_assoc.
  - apply nth_error_None in at_last. destruct tokens; [congruence |].
    cbn [length] in *. lia.
Qed.

(** C1. Whenever candidate [k] of the resolved credential list is the first
    whose request succeeds (the status is OK and the body parses) and every
    candidate before it fails, the dispatch returns the parsed body together
    with the token of candidate [k], and the requests it has issued are those
    of candidates [0..k] and no other: no candidate after [k] is tried. *)
Theorem rotation_stops_at_first_success
    (C : Collaborators) (endpoint logContext : string)
    (requestBody : JsonValue) (specificToken : option string)
    (w0 w1 : World) (tokens : list Credential) (k : nat)
    (response : Response) (body : JsonValue) :
  returns_normally C ->
  resolve_tokens C logContext specificToken w0 = (Returned tokens, w1) ->
  (forall j o, j < k ->
               answer_at C endpoint requestBody (requests w0) tokens j = Some o ->
               succeeds o = false) ->
  answer_at C endpoint requestBody (requests w0) tokens k
    = Some (FetchResponds response) ->
  resp_ok response = true ->
  resp_json response = inr body ->
  exists (candidate : Credential) (w2 : World),
    nth_error tokens k = Some candidate /\
    fetchWithTokenRotation C endpoint requestBody logContext specificToken w0
      = (Returned (mkResult body (token candidate)), w2) /\
    requests w2 =
      (requests w0 ++
       map (fun c => request_for C endpoint requestBody (token c))
           (firstn (S k) tokens))%list.
Proof.
  intros quiet resolved fails answer ok parsed.
  pose proof (resolve_tokens_requests C logContext specificToken w0) as same.
  rewrite resolved in same. cbn [snd] in same.
  destruct (nth_error tokens k) as [candidate |] eqn:at_k;
    [| unfold answer_at in answer; now rewrite at_k in answer].
  destruct (nth_error_split tokens k at_k) as (front & back & split & len).
  subst tokens k.
  rewrite answer_at_split in answer. injection answer as answer.
  destruct (rotate_failing_prefix endpoint logContext requestBody quiet
              (length (front ++ candidate :: back)) front 0
              (candidate :: back) None w1)
    as (errors & _ & _ & run).
  { intros j o at_j. rewrite same in at_j.
    assert (j < length front) as inside.
    { unfold answer_at in at_j.
      destruct (nth_error front j) eqn:E; [| discriminate].
      apply nth_error_Some. congruence. }
    apply (fails j o inside). now rewrite answer_at_prefix. }
  exists candidate. eexists. split; [reflexivity |].
  unfold fetchWithTokenRotation, bind. rewrite resolved.
  replace (length (front ++ candidate :: back) =? 0) with false
    by (symmetry; apply Nat.eqb_neq; rewrite length_app; cbn; lia).
  rewrite run.
  erewrite rotate_successful_attempt; [| exact quiet |].
  - split; [reflexivity |]. cbn [requests].
    now rewrite firstn_succ_split, map_app, app_assoc, same.
  - cbn [requests]. rewrite same, answer.
    now apply settle_success.
Qed.

(** C2. Whenever every candidate of a non-empty resolved credential list
    fails, the dispatch throws the error that the attempt of the final
    candidate left in [lastError]: that error itself, name and message,
    not an error wrapped around it. *)
Theorem exhaustion_rethrows_last_error
    (C : Collaborators) (endpoint logContext : string)
    (requestBody : JsonValue) (specificToken : option string)
    (w0 w1 : World) (tokens : list Credential) :
  returns_normally C ->
  resolve_tokens C logContext specificToken w0 = (Returned tokens, w1) ->
  tokens <> [] ->
  (forall j o, answer_at C endpoint requestBody (requests w0) tokens j = Some o ->
               succeeds o = false) ->
  exists (final : Credential) (answer : FetchOutcome) (e : JsError) (w2 : World),
    nth_error tokens (length tokens - 1) = Some final /\
    answer_at C endpoint requestBody (requests w0) tokens (length tokens - 1)
      = Some answer /\
    settle C (token final) answer = inl e /\
    fetchWithTokenRotation C endpoint requestBody logContext specificToken w0
      = (Threw (ThrownError e), w2).
Proof.
  intros quiet resolved nonempty fails.
  pose proof (resolve_tokens_requests C logContext specificToken w0) as same.
  rewrite resolved in same. cbn [snd] in same. rewrite <- same in fails.
  destruct (@rotate_all_fail C endpoint logContext requestBody tokens w1
              quiet nonempty fails)
    as (errors & e & len & each & at_last & run).
  destruct (nth_error tokens (length tokens - 1)) as [final |] eqn:at_final.
  2:{ apply nth_error_None in at_final. destruct tokens; [congruence |].
      cbn [length] in at_final. lia. }
  specialize (each _ _ _ at_final at_last). rewrite same in each.
  destruct (answer_at C endpoint requestBody (requests w0) tokens
              (length tokens - 1)) as [answer |] eqn:at_answer; [| discriminate].
  cbn [option_map] in each. injection each as caught.
  exists final, answer, e. eexists. repeat split; try assumption.
  unfold fetchWithTokenRotation, bind. rewrite resolved.
  replace (length tokens =? 0) with false
    by (symmetry; apply Nat.eqb_neq; destruct tokens; [congruence | cbn; lia]).
  exact run.
Qed.

(* ------------------------------------------------------------------ *)
(** ** An unusable session cache *)

Lemma getTokens_unusable (C : Collaborators) (w : World) :
  unusable C (veoAuthTokens w) -> getTokens C w = (Returned [], w).
Proof.
  intros bad. unfold getTokens, bind, sessionStorage_getItem, ret.
  inversion bad as [same | same | text parse same | text parse same
                    | text parse same]; try reflexivity;
    destruct (negb (text =? "")%string); try reflexivity;
    now rewrite parse.
Qed.

Lemma resolve_tokens_unusable (C : Collaborators) (logContext : string)
    (specificToken : option string) (w : World) :
  provided specificToken = false ->
  unusable C (veoAuthTokens w) ->
  resolve_tokens C logContext specificToken w = refetch C logContext w.
Proof.
  intros unpinned bad. unfold resolve_tokens, bind, initial_tokens.
  rewrite unpinned.
  assert (getTokens C w = (Returned [], w)) as cached
    by now apply getTokens_unusable.
  destruct specificToken; now rewrite cached.
Qed.

Lemma refetch_nothing (C : Collaborators) (logContext : string) (w : World) :
  returns_normally C ->
  yields_nothing (getVeoAuthTokens C) ->
  exists w1, refetch C logContext w = (Returned [], w1) /\
             requests w1 = requests w.
Proof.
  intros quiet nothing. unfold refetch, bind.
  rewrite (addLogEntry_returns _ _ quiet).
  destruct (getVeoAuthTokens C) as [[newTokens |] | e]; cbn in nothing.
  - subst newTokens. cbn. eexists. split; reflexivity.
  - eexists. split; reflexivity.
  - unfold bind. rewrite (addLogEntry_returns _ _ quiet).
    eexists. split; reflexivity.
Qed.

(** C3. With no pinned credential, an unusable session cache and a refresh
    that throws or returns nothing, the dispatch throws the no-credentials
    error of line 97 and no other: an [Error] whose message is the fixed text
    around the context label.  The list of requests issued is what it was
    before the call: no HTTP request is made. *)
Theorem no_credentials_fails_before_any_request
    (C : Collaborators) (endpoint logContext : string)
    (requestBody : JsonValue) (specificToken : option string) (w0 : World) :
  returns_normally C ->
  provided specificToken = false ->
  unusable C (veoAuthTokens w0) ->
  yields_nothing (getVeoAuthTokens C) ->
  exists w1 : World,
    fetchWithTokenRotation C endpoint requestBody logContext specificToken w0
      = (Threw (ThrownError (no_tokens_error logContext)), w1) /\
    requests w1 = requests w0 /\
    err_name (no_tokens_error logContext) = "Error" /\
    err_message (no_tokens_error logContext)
      = "Auth Token is required for " ++ logContext ++
        ". Please set it via the Key icon in the header.".
Proof.
  intros quiet unpinned bad nothing.
  destruct (refetch_nothing logContext w0 quiet nothing) as (w1 & run & same).
  exists w1. split; [| split; [exact same | split; reflexivity]].
  unfold fetchWithTokenRotation, bind.
  now rewrite resolve_tokens_unusable, run.
Qed.

(** C10. A pinned-credential argument equal to the empty string is no pin:
    the dispatch is the one made without the argument.  The candidates come
    from the session cache, and from the refresh when the cache has none;
    the empty token is not tried. *)
Theorem empty_pin_is_no_pin
    (C : Collaborators) (endpoint logContext : string)
    (requestBody : JsonValue) (w : World) :
  fetchWithTokenRotation C endpoint requestBody logContext (Some "") w
    = fetchWithTokenRotation C endpoint requestBody logContext None w /\
  resolve_tokens C logContext (Some "") w
    = (tokens <- getTokens C ;;
       if length tokens =? 0 then refetch C logContext else ret tokens) w.
Proof.
  split; [reflexivity |].
  unfold resolve_tokens, bind, initial_tokens. cbn [provided String.eqb negb].
  destruct (getTokens C w) as [[tokens | t] w1]; [| reflexivity].
  now rewrite andb_true_r.
Qed.

(* ------------------------------------------------------------------ *)
(** ** What does not read the session cache *)

Section CacheBlind.

Variables slot slot' : option string.

Lemma blind_ret {A} (a : A) : blind slot slot' (ret a).
Proof. intros w w' same. now split. Qed.

Lemma blind_throw {A} (t : Thrown) : blind slot slot' (@throw A t).
Proof. intros w w' same. now split. Qed.

Lemma blind_bind {A B} (m : M A) (k : A -> M B) :
  blind slot slot' m -> (forall a, blind slot slot' (k a)) ->
  blind slot slot' (bind m k).
Proof.
  intros Hm Hk w w' same. unfold bind.
  destruct (Hm w w' same) as [value after].
  destruct (m w) as [[a | t] w1], (m w') as [[a' | t'] w1'];
    cbn [fst snd] in value, after; try discriminate.
  - injection value as <-. now apply Hk.
  - injection value as <-. cbn [fst snd]. now split.
Qed.

Lemma blind_try_catch {A} (m : M A) (handler : Thrown -> M A) :
  blind slot slot' m -> (forall t, blind slot slot' (handler t)) ->
  blind slot slot' (try_catch m handler).
Proof.
  intros Hm Hh w w' same. unfold try_catch.
  destruct (Hm w w' same) as [value after].
  destruct (m w) as [[a | t] w1], (m w') as [[a' | t'] w1'];
    cbn [fst snd] in value, after; try discriminate.
  - cbn [fst snd]. now split.
  - injection value as <-. now apply Hh.
Qed.

Lemma blind_addLogEntry (C : Collaborators) (entry : LogEntry) :
  blind slot slot' (addLogEntry C entry).
Proof.
  intros w w' (log & reqs & slots). unfold addLogEntry. rewrite log.
  destruct (sink C (auditLog w') entry); cbn [fst snd];
    (split; [reflexivity |]); repeat split; cbn; congruence || assumption.
Qed.

Lemma blind_setItem (value : string) :
  blind slot slot' (sessionStorage_setItem value).
Proof.
  intros w w' (log & reqs & slots). unfold sessionStorage_setItem.
  cbn [fst snd]. split; [reflexivity |]. repeat split; cbn; auto.
Qed.

Lemma blind_send (C : Collaborators) (endpoint : string)
    (requestBody : JsonValue) (tok : string) :
  blind slot slot' (send C endpoint requestBody tok).
Proof.
  intros w w' (log & reqs & slots). unfold send. cbn [fst snd].
  rewrite reqs. split; [reflexivity |]. repeat split; cbn; auto.
Qed.

Lemma blind_attempt (C : Collaborators) (endpoint : string)
    (requestBody : JsonValue) (tok : string) :
  blind slot slot' (attempt C endpoint requestBody tok).
Proof.
  unfold attempt. apply blind_bind; [apply blind_send |].
  intros [e | response]; [apply blind_ret |].
  destruct (resp_json response) as [e | body]; [apply blind_ret |].
  destruct (negb (resp_ok response)); [| apply blind_ret].
  destruct body; apply blind_ret.
Qed.

Lemma blind_rotate (C : Collaborators) (endpoint logContext : string)
    (requestBody : JsonValue) (n : nat) (remaining : list Credential) :
  forall i lastError,
    blind slot slot'
      (rotate C endpoint requestBody logContext n i remaining lastError).
Proof.
  induction remaining as [| c rest IH]; intros i lastError; cbn [rotate].
  - destruct lastError; [| apply blind_throw].
    apply blind_bind; [apply blind_addLogEntry | intros; apply blind_throw].
  - apply blind_bind; [apply blind_addLogEntry | intros _].
    apply blind_bind; [apply blind_attempt | intros [error | result]].
    + apply blind_bind; [apply blind_addLogEntry | intros _].
      apply blind_bind; [| intros _; apply IH].
      destruct (i <? n - 1); [apply blind_addLogEntry | apply blind_ret].
    + apply blind_ret.
Qed.

Lemma blind_refetch (C : Collaborators) (logContext : string) :
  blind slot slot' (refetch C logContext).
Proof.
  unfold refetch. apply blind_bind; [apply blind_addLogEntry | intros _].
  destruct (getVeoAuthTokens C) as [[newTokens |] | e].
  - destruct (0 <? length newTokens); [| apply blind_ret].
    apply blind_bind; [apply blind_setItem | intros _].
    apply blind_bind; [| intros; apply blind_ret].
    apply blind_try_catch; [| intros t]; apply blind_addLogEntry.
  - apply blind_ret.
  - apply blind_bind; [apply blind_addLogEntry | intros; apply blind_ret].
Qed.

End CacheBlind.

(** C7. A session cache that is malformed JSON - or missing, empty, no array
    or an empty array - is read as no credentials at all, without an error:
    resolution goes on to the refresh, and the dispatch completes as it does
    when the key is missing, with the same result or error, the same audit
    entries and the same requests.  Only the storage slot may differ, and
    only when the refresh stored nothing. *)
Theorem unusable_cache_is_a_missing_cache
    (C : Collaborators) (endpoint logContext : string)
    (requestBody : JsonValue) (specificToken : option string)
    (slot : option string) (log : list LogEntry) (reqs : list Request) :
  provided specificToken = false ->
  unusable C slot ->
  let cached := mkWorld slot log reqs in
  let missing := mkWorld None log reqs in
  let run := fetchWithTokenRotation C endpoint requestBody logContext specificToken in
  getTokens C cached = (Returned [], cached) /\
  resolve_tokens C logContext specificToken cached = refetch C logContext cached /\
  fst (run cached) = fst (run missing) /\
  auditLog (snd (run cached)) = auditLog (snd (run missing)) /\
  requests (snd (run cached)) = requests (snd (run missing)) /\
  (veoAuthTokens (snd (run cached)) = veoAuthTokens (snd (run missing)) \/
   (veoAuthTokens (snd (run cached)) = slot /\
    veoAuthTokens (snd (run missing)) = None)).
Proof.
  intros unpinned bad cached missing run.
  split; [now apply getTokens_unusable |].
  split; [now apply resolve_tokens_unusable |].
  assert (blind slot None
            (tokens <- refetch C logContext ;;
             if length tokens =? 0
             then throw (ThrownError (no_tokens_error logContext))
             else rotate C endpoint requestBody logContext (length tokens) 0
                    tokens None)) as same.
  { apply blind_bind; [apply blind_refetch | intros tokens].
    destruct (length tokens =? 0); [apply blind_throw | apply blind_rotate]. }
  assert (forall w, unusable C (veoAuthTokens w) ->
            run w = (tokens <- refetch C logContext ;;
                     if length tokens =? 0
                     then throw (ThrownError (no_tokens_error logContext))
                     else rotate C endpoint requestBody logContext (length tokens) 0
                            tokens None) w) as unfolded.
  { intros w bad_w. unfold run, fetchWithTokenRotation, bind.
    now rewrite resolve_tokens_unusable. }
  rewrite (unfolded cached bad), (unfolded missing (cache_missing C)).
  destruct (same cached missing) as (value & trail & issued & slots).
  { repeat split; cbn; auto. }
  auto.
Qed.

(* ------------------------------------------------------------------ *)
(** ** The audit sink and the outcome of a dispatch *)

(** With the pinned token [C], which the sample server accepts, a sink
    that throws on every call turns the successful dispatch into a failure:
    line 106 calls the sink outside any [try]. *)
Lemma a_throwing_sink_changes_the_outcome : ~ sink_never_matters.
Proof.
  intros stated.
  specialize (stated (sample refresh_B_C no_op_sink)
                (throwing_sink (ThrownError (mkError "Error" "log store full")))
                "/api/veo/generate-t2v" "VEO T2V" JNull (Some "C") fresh_session).
  vm_compute in stated. discriminate stated.
Qed.

Section SinkOutsideTheTry.

Variable C : Collaborators.
Hypothesis guarded : returns_outside_the_try C.

Let quiet_C : Collaborators := with_sink C no_op_sink.

Lemma agree_ret {A} (a : A) : agree (ret a) (ret a).
Proof. intros w w' same. now split. Qed.

Lemma agree_throw {A} (t : Thrown) : agree (@throw A t) (@throw A t).
Proof. intros w w' same. now split. Qed.

Lemma agree_bind {A B} (m m' : M A) (k k' : A -> M B) :
  agree m m' -> (forall a, agree (k a) (k' a)) -> agree (bind m k) (bind m' k').
Proof.
  intros Hm Hk w w' same. unfold bind.
  destruct (Hm w w' same) as [value after].
  destruct (m w) as [[a | t] w1], (m' w') as [[a' | t'] w1'];
    cbn [fst snd] in value, after; try discriminate.
  - injection value as <-. now apply Hk.
  - injection value as <-. cbn [fst snd]. now split.
Qed.

(** A call of the sink outside the [try] block returns, whatever the sink
    has been handed before. *)
Lemma agree_addLogEntry (entry : LogEntry) :
  is_refetched entry = false ->
  agree (addLogEntry C entry) (addLogEntry quiet_C entry).
Proof.
  intros outside w w' [slots issued]. unfold addLogEntry.
  rewrite (guarded (auditLog w) entry outside).
  change (sink quiet_C (auditLog w') entry) with (@None Thrown).
  cbn [fst snd]. split; [reflexivity |]. now split.
Qed.

(** The call of line 74 with its [catch] clause: the sink returns, or it
    throws and the report of line 84 is written; the block is left normally
    either way. *)
Lemma agree_guarded_entry (logContext : string) (n : nat) :
  agree
    (try_catch (addLogEntry C (entry_refetched logContext n))
       (fun e => addLogEntry C (entry_refetch_failed logContext e)))
    (try_catch (addLogEntry quiet_C (entry_refetched logContext n))
       (fun e => addLogEntry quiet_C (entry_refetch_failed logContext e))).
Proof.
  intros w w' [slots issued]. unfold try_catch.
  change (addLogEntry quiet_C (entry_refetched logContext n) w')
    with (Returned tt, logged w' (entry_refetched logContext n)).
  destruct (addLogEntry_cases C (entry_refetched logContext n) w)
    as [-> | (t & _ & ->)].
  - cbn [fst snd logged]. split; [reflexivity |]. now split.
  - unfold addLogEntry.
    rewrite (guarded _ (entry_refetch_failed logContext t) eq_refl).
    cbn [fst snd logged veoAuthTokens requests]. split; [reflexivity |].
    now split.
Qed.

Lemma agree_attempt (endpoint : string) (requestBody : JsonValue)
    (tok : string) :
  agree (attempt C endpoint requestBody tok)
        (attempt quiet_C endpoint requestBody tok).
Proof.
  intros w w' [slots issued].
  change (attempt quiet_C) with (attempt C).
  rewrite !attempt_run, issued. cbn [fst snd]. split; [reflexivity |].
  split; cbn; [exact slots | reflexivity].
Qed.

Lemma agree_rotate (endpoint logContext : string) (requestBody : JsonValue)
    (n : nat) (remaining : list Credential) :
  forall i lastError,
    agree (rotate C endpoint requestBody logContext n i remaining lastError)
          (rotate quiet_C endpoint requestBody logContext n i remaining
             lastError).
Proof.
  induction remaining as [| c rest IH]; intros i lastError; cbn [rotate].
  - destruct lastError as [e |]; [| apply agree_throw].
    apply agree_bind; [now apply agree_addLogEntry | intros; apply agree_throw].
  - apply agree_bind; [now apply agree_addLogEntry | intros _].
    apply agree_bind; [apply agree_attempt | intros [e | result]].
    + apply agree_bind; [now apply agree_addLogEntry | intros _].
      apply agree_bind; [| intros _; apply IH].
      destruct (i <? n - 1); [now apply agree_addLogEntry | apply agree_ret].
    + apply agree_ret.
Qed.

Lemma agree_setItem (value : string) :
  agree (sessionStorage_setItem value) (sessionStorage_setItem value).
Proof.
  intros w w' [slots issued]. unfold sessionStorage_setItem. cbn [fst snd].
  split; [reflexivity |]. now split.
Qed.

Lemma agree_refetch (logContext : string) :
  agree (refetch C logContext) (refetch quiet_C logContext).
Proof.
  unfold refetch.
  apply agree_bind; [now apply agree_addLogEntry | intros _].
  change (getVeoAuthTokens quiet_C) with (getVeoAuthTokens C).
  change (JSON_stringify_tokens quiet_C) with (JSON_stringify_tokens C).
  destruct (getVeoAuthTokens C) as [[newTokens |] | e].
  - destruct (0 <? length newTokens); [| apply agree_ret].
    apply agree_bind; [apply agree_setItem | intros _].
    apply agree_bind; [apply agree_guarded_entry | intros; apply agree_ret].
  - apply agree_ret.
  - apply agree_bind; [| intros; apply agree_ret].
    apply agree_addLogEntry. now destruct e.
Qed.

Lemma agree_getTokens : agree (getTokens C) (getTokens quiet_C).
Proof.
  intros w w' same. pose proof same as [slots _].
  change (getTokens quiet_C) with (getTokens C).
  unfold getTokens, bind, sessionStorage_getItem. rewrite slots.
  destruct (veoAuthTokens w') as [text |]; [| now split].
  destruct (negb (text =? "")%string); [| now split].
  destruct (JSON_parse C text) as [[parsed |] |]; try now split.
  destruct (0 <? length parsed); now split.
Qed.

Lemma agree_dispatch (endpoint logContext : string) (requestBody : JsonValue)
    (specificToken : option string) :
  agree (fetchWithTokenRotation C endpoint requestBody logContext specificToken)
        (fetchWithTokenRotation quiet_C endpoint requestBody logContext
           specificToken).
Proof.
  unfold fetchWithTokenRotation, resolve_tokens.
  apply agree_bind.
  - apply agree_bind.
    + unfold initial_tokens. destruct specificToken as [s |].
      * destruct (provided (Some s)); [apply agree_ret | apply agree_getTokens].
      * apply agree_getTokens.
    + intros tokens.
      destruct ((length tokens =? 0) && negb (provided specificToken));
        [apply agree_refetch | apply agree_ret].
  - intros tokens.
    destruct (length tokens =? 0); [apply agree_throw | apply agree_rotate].
Qed.

End SinkOutsideTheTry.

(** C9, amended. For every audit sink that returns normally from the calls
    made outside a [try] block - all of them but the call of line 74, whose
    throw the [catch] of line 82 absorbs - the dispatch produces the same
    result or error as with the sink that does nothing, issues the same
    requests and leaves the same session cache.  A sink that throws at
    another call is not covered: its error leaves the dispatch. *)
Theorem a_sink_that_returns_outside_the_try_is_a_no_op_sink
    (C : Collaborators) (endpoint logContext : string)
    (requestBody : JsonValue) (specificToken : option string) (w : World) :
  returns_outside_the_try C ->
  let run := fetchWithTokenRotation C endpoint requestBody logContext
               specificToken w in
  let quiet_run := fetchWithTokenRotation (with_sink C no_op_sink) endpoint
                     requestBody logContext specificToken w in
  fst run = fst quiet_run /\
  requests (snd run) = requests (snd quiet_run) /\
  veoAuthTokens (snd run) = veoAuthTokens (snd quiet_run).
Proof.
  intros guarded run quiet_run.
  destruct (@agree_dispatch C guarded endpoint logContext requestBody
              specificToken w w) as (value & slots & issued); [now split |].
  now repeat split.
Qed.

(** The refresh returns [[B, C]] and the sink throws on the entry of line
    74: the dispatch still returns the body the server gives to [C], after
    the same two requests, while the audit trail has one entry more than
    with the sink that does nothing. *)
Lemma a_sink_that_returns_outside_the_try_is_a_no_op_sink_witness :
  let thrown := ThrownError (mkError "Error" "log store full") in
  let C := sample refresh_B_C (sink_failing_at_line_74 thrown) in
  let run := fetchWithTokenRotation C "/api/veo/generate-t2v" JNull "VEO T2V"
               None fresh_session in
  let quiet_run := fetchWithTokenRotation (with_sink C no_op_sink)
                     "/api/veo/generate-t2v" JNull "VEO T2V" None
                     fresh_session in
  sink C [entry_session_empty "VEO T2V"] (entry_refetched "VEO T2V" 2)
    = Some thrown /\
  length (auditLog (snd run)) = S (length (auditLog (snd quiet_run))) /\
  fst run = fst quiet_run /\
  requests (snd run) = requests (snd quiet_run) /\
  veoAuthTokens (snd run) = veoAuthTokens (snd quiet_run).
Proof.
  intros thrown C run quiet_run.
  split; [reflexivity |]. split; [reflexivity |].
  apply (@a_sink_that_returns_outside_the_try_is_a_no_op_sink
           C "/api/veo/generate-t2v" "VEO T2V" JNull None fresh_session).
  intros history entry outside. cbn. unfold sink_failing_at_line_74.
  now rewrite outside.
Defined.

(* ------------------------------------------------------------------ *)
(** ** A pinned credential *)

Lemma resolve_tokens_pinned (C : Collaborators) (logContext s : string)
    (w : World) :
  s <> "" ->
  resolve_tokens C logContext (Some s) w = (Returned [mkCredential s "N/A"], w).
Proof.
  intros truthy_s. apply String.eqb_neq in truthy_s.
  unfold resolve_tokens, bind, initial_tokens, provided.
  now rewrite truthy_s.
Qed.

Lemma dispatch_pinned (C : Collaborators) (endpoint logContext s : string)
    (requestBody : JsonValue) (w : World) :
  s <> "" ->
  fetchWithTokenRotation C endpoint requestBody logContext (Some s) w
  = rotate C endpoint requestBody logContext 1 0 [mkCredential s "N/A"] None w.
Proof.
  intros truthy_s. unfold fetchWithTokenRotation, bind.
  now rewrite resolve_tokens_pinned.
Qed.

(** The empty string supplied as pinned credential is falsy at line 56: the
    cached list [[A, B]] is resolved instead, and both its tokens are
    tried. *)
Lemma an_empty_pin_reads_the_cache :
  ~ every_pin_bypasses_rotation /\
  resolve_tokens (sample refresh_B_C no_op_sink) "VEO T2V" (Some "")
    (mkWorld (Some "[A,B]") [] [])
  = (Returned [credential_A; credential_B], mkWorld (Some "[A,B]") [] []) /\
  length (requests (snd (fetchWithTokenRotation (sample refresh_B_C no_op_sink)
                           "/api/veo/generate-t2v" JNull "VEO T2V" (Some "")
                           (mkWorld (Some "[A,B]") [] [])))) = 2.
Proof.
  split; [| split; reflexivity].
  intros stated.
  specialize (stated (sample refresh_B_C no_op_sink) "VEO T2V" ""
                (mkWorld (Some "[A,B]") [] [])).
  vm_compute in stated. discriminate stated.
Qed.

(** C4, amended. For every call that supplies a non-empty pinned
    credential, resolution yields the single credential
    [{token: pinned, createdAt: 'N/A'}] and leaves the world as it was - no
    cache read or write, no refresh - and the dispatch makes exactly one
    attempt: one attempt-start entry and one request, carrying that token,
    whether the attempt succeeds or fails and whatever the cache holds. *)
Theorem a_pinned_token_is_tried_once
    (C : Collaborators) (endpoint logContext pinned : string)
    (requestBody : JsonValue) (w : World) :
  returns_normally C ->
  pinned <> "" ->
  let run := fetchWithTokenRotation C endpoint requestBody logContext (Some pinned) in
  resolve_tokens C logContext (Some pinned) w
    = (Returned [mkCredential pinned "N/A"], w) /\
  (exists new : list LogEntry,
      snd (run w) =
        mkWorld (veoAuthTokens w) (auditLog w ++ new)%list
          (requests w ++ [request_for C endpoint requestBody pinned])%list /\
      count is_attempt_start new = 1) /\
  (forall cache : option string,
      fst (run (mkWorld cache (auditLog w) (requests w))) = fst (run w)).
Proof.
  intros quiet truthy_pin run. split; [now apply resolve_tokens_pinned |]. split.
  - unfold run. rewrite dispatch_pinned by exact truthy_pin.
    destruct (settle C pinned
                (fetch C (requests w) (request_for C endpoint requestBody pinned)))
      as [e | result] eqn:settled.
    + erewrite rotate_failed_attempt; [| exact quiet | exact settled].
      rewrite (rotate_exhausted _ _ _ quiet).
      cbn [snd veoAuthTokens auditLog requests token].
      exists (failure_entries logContext 1 0 pinned e ++
              [entry_exhausted logContext e])%list.
      split; [now rewrite <- app_assoc | reflexivity].
    + erewrite rotate_successful_attempt; [| exact quiet | exact settled].
      cbn [snd token]. exists [entry_attempt logContext 0 pinned].
      split; reflexivity.
  - intros cache.
    assert (blind cache (veoAuthTokens w) run) as same.
    { intros w1 w2 related. unfold run.
      rewrite !dispatch_pinned by exact truthy_pin.
      now apply blind_rotate. }
    apply same. repeat split; cbn; auto.
Qed.

(* ------------------------------------------------------------------ *)
(** ** Counting audit entries *)

Lemma count_app (p : LogEntry -> bool) (l1 l2 : list LogEntry) :
  count p (l1 ++ l2) = count p l1 + count p l2.
Proof. unfold count. now rewrite filter_app, length_app. Qed.

(** The entries of the failed attempts [i .. n-1], by kind. *)
Lemma failures_log_counts (logContext : string) (n : nat)
    (attempts : list (string * JsError)) :
  forall i, i + length attempts = n ->
    let log := failures_log logContext n i attempts in
    count is_attempt_start log = length attempts /\
    count is_attempt_failure log = length attempts /\
    count is_retry log = length attempts - 1 /\
    count is_summary log = 0 /\
    length log = 3 * length attempts - 1.
Proof.
  induction attempts as [| [tok e] rest IH]; intros i total; [now cbn |].
  cbn [length] in total.
  destruct (IH (S i)) as (starts & failures & retries & summaries & len);
    [lia |].
  cbn [failures_log]. cbv zeta. rewrite !count_app, length_app.
  rewrite starts, failures, retries, summaries, len. unfold failure_entries.
  destruct (i <? n - 1) eqn:more.
  - apply Nat.ltb_lt in more.
    destruct rest as [| next rest]; cbn [length] in *; [lia |].
    repeat split; cbn; lia.
  - apply Nat.ltb_ge in more.
    destruct rest as [| next rest]; cbn [length] in *; [| lia].
    repeat split; reflexivity.
Qed.

Lemma refetch_log (C : Collaborators) (logContext : string) (w : World) :
  returns_normally C ->
  auditLog (snd (refetch C logContext w))
  = (auditLog w ++ refresh_entries C logContext)%list.
Proof.
  intros quiet. unfold refetch, refresh_entries, bind.
  rewrite (addLogEntry_returns _ _ quiet).
  destruct (getVeoAuthTokens C) as [[newTokens |] | e].
  - destruct (0 <? length newTokens); [| reflexivity].
    unfold bind, try_catch, sessionStorage_setItem.
    rewrite (addLogEntry_returns _ _ quiet). cbn. now rewrite <- app_assoc.
  - reflexivity.
  - unfold bind. rewrite (addLogEntry_returns _ _ quiet). cbn.
    now rewrite <- app_assoc.
Qed.

(** The pinned token [A], answered with HTTP 500: the rotation adds three
    entries - attempt start, attempt failure, summary - not two. *)
Lemma a_failed_attempt_writes_two_entries : ~ one_entry_per_failed_attempt.
Proof.
  intros stated.
  destruct (stated (sample refresh_B_C no_op_sink) "/api/veo/generate-t2v"
              "VEO T2V" JNull (Some "A") fresh_session fresh_session
              [mkCredential "A" "N/A"])
    as (new & log & _ & _ & len).
  - intros history entry. reflexivity.
  - reflexivity.
  - discriminate.
  - intros [| j] o; [| destruct j; discriminate].
    intros at_0. injection at_0 as <-. reflexivity.
  - vm_compute in log. subst new. discriminate len.
Qed.

(** C6, amended. Each failed attempt produces an attempt-start entry and
    an attempt-failure entry, and a retry entry when another candidate
    remains; the exhaustion produces one summary entry.  When all [n]
    candidates fail the rotation adds exactly [n] attempt-start entries, [n]
    attempt-failure entries, [n - 1] retry entries and one summary entry,
    [3 n] entries in all.  A refresh adds its announcement, then one entry
    for its outcome when it returned a non-empty list or threw. *)
Theorem audit_entries_of_an_exhausted_rotation
    (C : Collaborators) (endpoint logContext : string)
    (requestBody : JsonValue) (specificToken : option string)
    (w0 w1 : World) (tokens : list Credential) :
  returns_normally C ->
  resolve_tokens C logContext specificToken w0 = (Returned tokens, w1) ->
  tokens <> [] ->
  (forall j o, answer_at C endpoint requestBody (requests w0) tokens j = Some o ->
               succeeds o = false) ->
  (exists (errors : list JsError) (e : JsError) (new : list LogEntry),
      length errors = length tokens /\
      new = (failures_log logContext (length tokens) 0
               (combine (map token tokens) errors) ++
             [entry_exhausted logContext e])%list /\
      auditLog (snd (fetchWithTokenRotation C endpoint requestBody logContext
                       specificToken w0))
      = (auditLog w1 ++ new)%list /\
      count is_attempt_start new = length tokens /\
      count is_attempt_failure new = length tokens /\
      count is_retry new = length tokens - 1 /\
      count is_summary new = 1 /\
      length new = 3 * length tokens) /\
  (forall w, auditLog (snd (refetch C logContext w))
             = (auditLog w ++ refresh_entries C logContext)%list).
Proof.
  intros quiet resolved nonempty fails. split; [| intros w; now apply refetch_log].
  pose proof (resolve_tokens_requests C logContext specificToken w0) as same.
  rewrite resolved in same. cbn [snd] in same. rewrite <- same in fails.
  destruct (@rotate_all_fail C endpoint logContext requestBody tokens w1
              quiet nonempty fails)
    as (errors & e & len & _ & _ & run).
  exists errors, e. eexists. split; [exact len |]. split; [reflexivity |].
  assert (length (combine (map token tokens) errors) = length tokens) as paired
    by (rewrite length_combine, length_map, len; apply Nat.min_id).
  destruct (@failures_log_counts logContext (length tokens)
              (combine (map token tokens) errors) 0)
    as (starts & failures & retries & summaries & total); [now rewrite paired |].
  rewrite paired in starts, failures, retries, total.
  assert (0 < length tokens) as positive
    by (destruct tokens; [congruence | cbn; lia]).
  split.
  - unfold fetchWithTokenRotation, bind. rewrite resolved.
    replace (length tokens =? 0) with false
      by (symmetry; apply Nat.eqb_neq; lia).
    now rewrite run.
  - rewrite !count_app, length_app, starts, failures, retries, summaries, total.
    cbn. repeat split; lia.
Qed.

(* ------------------------------------------------------------------ *)
(** ** The error of a failed status *)

(** HTTP 502 with a body that is no JSON: [response.json()] rejects at line
    126, before line 128 looks at the status, and its error is the one
    caught. *)
Lemma an_unparseable_body_is_the_error : ~ message_comes_from_the_body.
Proof.
  intros stated.
  specialize (stated (sample refresh_B_C no_op_sink) "A"
                (mkResponse 502
                   (inl (mkError "SyntaxError"
                           "Unexpected token < in JSON at position 0")))
                (mkError "SyntaxError" "Unexpected token < in JSON at position 0")
                eq_refl eq_refl).
  vm_compute in stated. discriminate stated.
Qed.

(** A nested message that is present but empty is passed over by [||]. *)
Example an_empty_nested_message_is_skipped :
  settle (sample refresh_B_C no_op_sink) "A"
    (FetchResponds
       (mkResponse 429
          (inr (JObject [("error", JObject [("message", JString "")]);
                         ("message", JString "rate limited")]))))
  = inl (new_Error "rate limited").
Proof. reflexivity. Qed.

(** C5, amended. For every attempt whose status indicates failure and whose
    body parses to a JSON value other than [null], the error caught is an
    [Error] whose message is the nested [error.message] of the body when
    that is truthy, else the top-level [message] when that is truthy, else
    [API call failed (<status>)]; when the body does not parse, the error
    caught is the one [response.json()] rejected with.  In particular, with
    the cached list [[{token: "A"}]] and an HTTP 500 answer with body
    [{"error": {"message": "quota"}}], the dispatch fails with message
    [quota] and writes one attempt-failure entry. *)
Theorem failed_status_error_message
    (C : Collaborators) (endpoint tok : string) (requestBody : JsonValue)
    (w : World) (response : Response) :
  fetch C (requests w) (request_for C endpoint requestBody tok)
    = FetchResponds response ->
  resp_ok response = false ->
  (forall body,
      resp_json response = inr body -> body <> JNull ->
      exists (e : JsError) (w' : World),
        attempt C endpoint requestBody tok w = (Returned (inl e), w') /\
        err_name e = "Error" /\
        let nested := optional_message (get_property "error" body) in
        let top := get_property "message" body in
        (forall v, nested = Some v -> truthy v = true ->
                   err_message e = ToString v) /\
        (forall v, absent_or_falsy nested -> top = Some v -> truthy v = true ->
                   err_message e = ToString v) /\
        (absent_or_falsy nested -> absent_or_falsy top ->
         err_message e =
           "API call failed (" ++ decimal (resp_status response) ++ ")")) /\
  (forall (rejected : JsError),
      resp_json response = inl rejected ->
      exists w', attempt C endpoint requestBody tok w
                 = (Returned (inl rejected), w')) /\
  (forall (text created logContext : string),
      returns_normally C ->
      tok = "A" ->
      veoAuthTokens w = Some text ->
      text <> "" ->
      JSON_parse C text = Some (ParsedArray [mkCredential "A" created]) ->
      response = mkResponse 500 (inr quota_body) ->
      exists new : list LogEntry,
        fetchWithTokenRotation C endpoint requestBody logContext None w
        = (Threw (ThrownError (new_Error "quota")),
           mkWorld (veoAuthTokens w) (auditLog w ++ new)%list
             (requests w ++ [request_for C endpoint requestBody "A"])%list) /\
        count is_attempt_failure new = 1).
Proof.
  intros answer failed. split; [| split].
  - intros body parsed not_null. rewrite attempt_run, answer.
    unfold settle. rewrite parsed, failed. cbn [negb].
    exists (new_Error (ToString (errorMessage_of (resp_status response) body))).
    eexists. split; [now destruct body |]. split; [reflexivity |].
    cbn [err_message new_Error]. unfold errorMessage_of, js_or, absent_or_falsy.
    destruct (optional_message (get_property "error" body)) as [n |];
      destruct (get_property "message" body) as [m |]; cbv zeta;
      repeat split; intros;
      repeat match goal with
        | H : Some _ = Some _ |- _ => injection H as ->
        | H : truthy ?v = _ |- _ => rewrite H in *
        | H : None = Some _ |- _ => discriminate H
        end;
      try reflexivity; try discriminate;
      destruct (truthy n); try discriminate; reflexivity.
  - intros rejected parsed. rewrite attempt_run, answer. unfold settle.
    rewrite parsed. eexists. reflexivity.
  - intros text created logContext quiet -> cached not_blank parse ->.
    apply String.eqb_neq in not_blank.
    assert (resolve_tokens C logContext None w
            = (Returned [mkCredential "A" created], w)) as resolved.
    { unfold resolve_tokens, bind, initial_tokens, getTokens, bind,
        sessionStorage_getItem.
      now rewrite cached, not_blank, parse. }
    unfold fetchWithTokenRotation, bind. rewrite resolved. cbn [length Nat.eqb].
    erewrite rotate_failed_attempt; [| exact quiet |].
    2:{ cbn [token]. rewrite answer. reflexivity. }
    rewrite (rotate_exhausted _ _ _ quiet).
    cbn [veoAuthTokens auditLog requests token].
    eexists. split; [now rewrite <- app_assoc |]. reflexivity.
Qed.

(* ------------------------------------------------------------------ *)
(** ** What the audit trail shows of a token *)





(** C8. The pinned token [s3cr3t], six characters long: the attempt-start
    entry of the dispatch reads [Using token ending in ...s3cr3t], so the
    whole token is in the audit trail, where the specification has a redacted
    identifier. *)
Lemma a_short_token_is_logged_in_full :
  ~ tokens_are_always_redacted /\
  exists entry : LogEntry,
    In entry
      (auditLog (snd (fetchWithTokenRotation (sample refresh_B_C no_op_sink)
                        "/api/veo/generate-t2v" JNull "VEO T2V"
                        (Some "s3cr3t") fresh_session))) /\
    output entry = "Using token ending in ...s3cr3t" /\
    is_infix "s3cr3t" (output entry) = true.
Proof.
  split.
  - intros stated. specialize (stated "VEO T2V" 0 "s3cr3t").
    vm_compute in stated. discriminate stated.
  - exists (entry_attempt "VEO T2V" 0 "s3cr3t").
    split; [now left |]. split; reflexivity.
Qed.


(* ------------------------------------------------------------------ *)
(** ** The theorems at work on the sample collaborators *)

(** Empty cache, the refresh returns [[B, C]], the request with [B] meets a
    network error and the request with [C] is answered HTTP 200: the
    dispatch returns the body with token [C] after two requests. *)
Lemma rotation_stops_at_first_success_witness :
  resolve_tokens (sample refresh_B_C no_op_sink) "VEO T2V" None fresh_session
    = (Returned [credential_B; credential_C], refreshed_session) /\
  exists (candidate : Credential) (w2 : World),
    nth_error [credential_B; credential_C] 1 = Some candidate /\
    fetchWithTokenRotation (sample refresh_B_C no_op_sink)
      "/api/veo/generate-t2v" JNull "VEO T2V" None fresh_session
      = (Returned (mkResult ok_body (token candidate)), w2) /\
    requests w2 =
      (requests fresh_session ++
       map (fun c => request_for (sample refresh_B_C no_op_sink)
                       "/api/veo/generate-t2v" JNull (token c))
           (firstn 2 [credential_B; credential_C]))%list.
Proof.
  split; [reflexivity |].
  apply (@rotation_stops_at_first_success
           (sample refresh_B_C no_op_sink) "/api/veo/generate-t2v" "VEO T2V"
           JNull None fresh_session refreshed_session
           [credential_B; credential_C] 1 (mkResponse 200 (inr ok_body)) ok_body).
  - intros history entry. reflexivity.
  - reflexivity.
  - intros j o before at_j. destruct j as [| j]; [| lia].
    injection at_j as <-. reflexivity.
  - reflexivity.
  - reflexivity.
  - reflexivity.
Defined.

(** The cached list [[A, B]]: [A] is answered HTTP 500 and [B] meets a
    network error, whose [TypeError] the dispatch throws. *)
Lemma exhaustion_rethrows_last_error_witness :
  exists (final : Credential) (answer : FetchOutcome) (e : JsError) (w2 : World),
    nth_error [credential_A; credential_B] (2 - 1) = Some final /\
    answer_at (sample refresh_B_C no_op_sink) "/api/veo/generate-t2v" JNull
      [] [credential_A; credential_B] (2 - 1) = Some answer /\
    settle (sample refresh_B_C no_op_sink) (token final) answer = inl e /\
    fetchWithTokenRotation (sample refresh_B_C no_op_sink)
      "/api/veo/generate-t2v" JNull "VEO T2V" None
      (mkWorld (Some "[A,B]") [] [])
      = (Threw (ThrownError e), w2).
Proof.
  apply (@exhaustion_rethrows_last_error
           (sample refresh_B_C no_op_sink) "/api/veo/generate-t2v" "VEO T2V"
           JNull None (mkWorld (Some "[A,B]") [] [])
           (mkWorld (Some "[A,B]") [] []) [credential_A; credential_B]).
  - intros history entry. reflexivity.
  - reflexivity.
  - discriminate.
  - intros j o at_j. destruct j as [| [| [| j]]];
      try discriminate at_j; injection at_j as <-; reflexivity.
Defined.

(** The cache holds [{not json] and the refresh throws. *)
Lemma no_credentials_fails_before_any_request_witness :
  unusable (sample refresh_down no_op_sink) (Some "{not json") /\
  exists w1 : World,
    fetchWithTokenRotation (sample refresh_down no_op_sink)
      "/api/veo/generate-t2v" JNull "VEO T2V" None
      (mkWorld (Some "{not json") [] [])
      = (Threw (ThrownError (no_tokens_error "VEO T2V")), w1) /\
    requests w1 = requests (mkWorld (Some "{not json") [] []) /\
    err_name (no_tokens_error "VEO T2V") = "Error" /\
    err_message (no_tokens_error "VEO T2V")
      = "Auth Token is required for " ++ "VEO T2V" ++
        ". Please set it via the Key icon in the header.".
Proof.
  assert (unusable (sample refresh_down no_op_sink) (Some "{not json")) as bad
    by (apply cache_malformed; reflexivity).
  split; [exact bad |].
  apply (@no_credentials_fails_before_any_request
           (sample refresh_down no_op_sink) "/api/veo/generate-t2v" "VEO T2V"
           JNull None (mkWorld (Some "{not json") [] [])).
  - intros history entry. reflexivity.
  - reflexivity.
  - exact bad.
  - exact I.
Defined.

(** The pinned token [C] while the cache holds [[A, B]]. *)
Lemma a_pinned_token_is_tried_once_witness :
  resolve_tokens (sample refresh_B_C no_op_sink) "VEO T2V" (Some "C")
    (mkWorld (Some "[A,B]") [] [])
  = (Returned [mkCredential "C" "N/A"], mkWorld (Some "[A,B]") [] []) /\
  length (requests (snd (fetchWithTokenRotation (sample refresh_B_C no_op_sink)
                           "/api/veo/generate-t2v" JNull "VEO T2V" (Some "C")
                           (mkWorld (Some "[A,B]") [] [])))) = 1.
Proof.
  destruct (@a_pinned_token_is_tried_once
              (sample refresh_B_C no_op_sink) "/api/veo/generate-t2v" "VEO T2V"
              "C" JNull (mkWorld (Some "[A,B]") [] []))
    as (resolved & (new & after & _) & _).
  - intros history entry. reflexivity.
  - discriminate.
  - split; [exact resolved |]. rewrite after. reflexivity.
Defined.

(** The scenario of the cached list [[A]] answered with HTTP 500. *)
Lemma failed_status_error_message_witness :
  exists new : list LogEntry,
    fetchWithTokenRotation (sample refresh_B_C no_op_sink)
      "/api/veo/generate-t2v" JNull "VEO T2V" None (mkWorld (Some "[A]") [] [])
    = (Threw (ThrownError (new_Error "quota")),
       mkWorld (Some "[A]") ([] ++ new)%list
         ([] ++ [request_for (sample refresh_B_C no_op_sink)
                   "/api/veo/generate-t2v" JNull "A"])%list) /\
    count is_attempt_failure new = 1.
Proof.
  destruct (@failed_status_error_message
              (sample refresh_B_C no_op_sink) "/api/veo/generate-t2v" "A" JNull
              (mkWorld (Some "[A]") [] []) (mkResponse 500 (inr quota_body)))
    as (_ & _ & scenario).
  - reflexivity.
  - reflexivity.
  - apply (scenario "[A]" "2024-05-01T08:00:00Z" "VEO T2V").
    + intros history entry. reflexivity.
    + reflexivity.
    + reflexivity.
    + discriminate.
    + reflexivity.
    + reflexivity.
Defined.

(** The cached list [[A, B]], both failing: six entries. *)
Lemma audit_entries_of_an_exhausted_rotation_witness :
  exists new : list LogEntry,
    auditLog (snd (fetchWithTokenRotation (sample refresh_B_C no_op_sink)
                     "/api/veo/generate-t2v" JNull "VEO T2V" None
                     (mkWorld (Some "[A,B]") [] [])))
    = ([] ++ new)%list /\
    count is_attempt_start new = 2 /\
    count is_attempt_failure new = 2 /\
    count is_retry new = 2 - 1 /\
    count is_summary new = 1 /\
    length new = 3 * 2.
Proof.
  destruct (@audit_entries_of_an_exhausted_rotation
              (sample refresh_B_C no_op_sink) "/api/veo/generate-t2v" "VEO T2V"
              JNull None (mkWorld (Some "[A,B]") [] [])
              (mkWorld (Some "[A,B]") [] []) [credential_A; credential_B])
    as ((errors & e & new & _ & _ & facts) & _).
  - intros history entry. reflexivity.
  - reflexivity.
  - discriminate.
  - intros j o at_j. destruct j as [| [| [| j]]];
      try discriminate at_j; injection at_j as <-; reflexivity.
  - exists new. exact facts.
Defined.

(** The cache holds [{not json]; the refresh returns [[B, C]]. *)
Lemma unusable_cache_is_a_missing_cache_witness :
  let run := fetchWithTokenRotation (sample refresh_B_C no_op_sink)
               "/api/veo/generate-t2v" JNull "VEO T2V" None in
  unusable (sample refresh_B_C no_op_sink) (Some "{not json") /\
  getTokens (sample refresh_B_C no_op_sink) (mkWorld (Some "{not json") [] [])
    = (Returned [], mkWorld (Some "{not json") [] []) /\
  fst (run (mkWorld (Some "{not json") [] [])) = fst (run (mkWorld None [] [])).
Proof.
  assert (unusable (sample refresh_B_C no_op_sink) (Some "{not json")) as bad
    by (apply cache_malformed; reflexivity).
  intros run. split; [exact bad |].
  destruct (@unusable_cache_is_a_missing_cache
              (sample refresh_B_C no_op_sink) "/api/veo/generate-t2v" "VEO T2V"
              JNull None (Some "{not json") [] [] eq_refl bad)
    as (read & _ & same & _).
  split; [exact read | exact same].
Defined.

(* ------------------------------------------------------------------ *)
(** ** The proxy URLs *)

(** X1. Only the exact value [production] of [NODE_ENV] selects the remote
    hosts, and then the Veo and the Imagen proxies are two different [https]
    origins; for every other value, and when the variable is not set, both
    functions return the empty string, so that a URL built as base plus path
    is the path itself and stays relative. *)
Theorem proxy_urls_outside_production (NODE_ENV : option string) (path : string) :
  (NODE_ENV <> Some "production" ->
   getVeoProxyUrl NODE_ENV ++ path = path /\
   getImagenProxyUrl NODE_ENV ++ path = path) /\
  (NODE_ENV = Some "production" ->
   starts_with "https://" (getVeoProxyUrl NODE_ENV ++ path) = true /\
   starts_with "https://" (getImagenProxyUrl NODE_ENV ++ path) = true /\
   getVeoProxyUrl NODE_ENV ++ path <> getImagenProxyUrl NODE_ENV ++ path) /\
  (getVeoProxyUrl NODE_ENV = getImagenProxyUrl NODE_ENV <->
   NODE_ENV <> Some "production").
Proof.
  unfold getVeoProxyUrl, getImagenProxyUrl.
  destruct NODE_ENV as [env |].
  - destruct (String.eqb_spec env "production") as [-> | other].
    + split; [intros H; now contradiction H |].
      split; [intros _; repeat split; try reflexivity; cbn; discriminate |].
      split; [discriminate | intros H; now contradiction H].
    + split; [intros _; now split |].
      split; [intros [= ->]; now contradiction other |].
      split; [intros _ [= ->]; now contradiction other | reflexivity].
  - split; [intros _; now split |].
    split; [discriminate |]. split; [discriminate | reflexivity].
Qed.

(* ------------------------------------------------------------------ *)
(** ** Reading the session cache *)

Lemma unusable_or_usable (C : Collaborators) (slot : option string) :
  unusable C slot \/ exists cached, usable C slot cached.
Proof.
  destruct slot as [text |]; [| left; constructor].
  destruct (String.eqb_spec text "") as [-> | filled]; [left; constructor |].
  destruct (JSON_parse C text) as [[[| c cached] |] |] eqn:parse.
  - left. now apply cache_empty_array.
  - right. exists (c :: cached), text. repeat split; try assumption. discriminate.
  - left. now apply cache_not_an_array.
  - left. now apply cache_malformed.
Qed.

Lemma getTokens_usable (C : Collaborators) (w : World)
    (cached : list Credential) :
  usable C (veoAuthTokens w) cached -> getTokens C w = (Returned cached, w).
Proof.
  intros (text & slot & filled & parse & nonempty).
  apply String.eqb_neq in filled.
  unfold getTokens, bind, sessionStorage_getItem.
  rewrite slot, filled, parse. cbn [negb].
  destruct cached; [congruence | reflexivity].
Qed.

Lemma resolve_tokens_usable (C : Collaborators) (logContext : string)
    (specificToken : option string) (w : World) (cached : list Credential) :
  provided specificToken = false ->
  usable C (veoAuthTokens w) cached ->
  resolve_tokens C logContext specificToken w = (Returned cached, w).
Proof.
  intros unpinned good. unfold resolve_tokens, bind, initial_tokens.
  rewrite unpinned.
  assert (getTokens C w = (Returned cached, w)) as read
    by now apply getTokens_usable.
  destruct good as (_ & _ & _ & _ & nonempty).
  destruct specificToken; rewrite read;
    (destruct cached; [congruence | reflexivity]).
Qed.

(** X2. [getTokens] never throws and never writes: whatever the cache holds
    and whatever [JSON.parse] does with it, the call returns and the world
    is as before.  What it returns is the parsed array, elements in order,
    when the text is not empty and parses to an array with an element, and
    the empty list in every other case. *)
Theorem getTokens_returns_the_cache_or_nothing (C : Collaborators) (w : World) :
  exists tokens : list Credential,
    getTokens C w = (Returned tokens, w) /\
    (unusable C (veoAuthTokens w) <-> tokens = []) /\
    (forall cached, usable C (veoAuthTokens w) cached <->
                    (tokens = cached /\ cached <> [])).
Proof.
  destruct (unusable_or_usable C (veoAuthTokens w)) as [bad | (cached & good)].
  - exists []. split; [now apply getTokens_unusable |]. split; [tauto |].
    intros cached. split.
    + intros (text & slot & filled & parse & nonempty). exfalso.
      inversion bad as [same | same | text' none same | text' other same
                        | text' empty same];
        rewrite slot in same; congruence.
    + intros [<- nonempty]. congruence.
  - pose proof good as (text & slot & filled & parse & nonempty).
    exists cached. split; [now apply getTokens_usable |]. split.
    + split; [| congruence]. intros bad. exfalso.
      inversion bad as [same | same | text' none same | text' other same
                        | text' empty same];
        rewrite slot in same; congruence.
    + intros other. split.
      * intros (text' & slot' & _ & parse' & _).
        rewrite slot in slot'. injection slot' as <-.
        rewrite parse in parse'. injection parse' as <-. now split.
      * intros [<- _]. exact good.
Qed.

(* ------------------------------------------------------------------ *)
(** ** What a dispatch leaves behind, whatever the sink does *)

Lemma retry_step (C : Collaborators) (logContext : string) (n i : nat)
    (w : World) :
  exists (extra : list LogEntry) (completion : Completion unit),
    (if i <? n - 1 then addLogEntry C (entry_retry logContext) else ret tt) w
    = (completion,
       mkWorld (veoAuthTokens w) (auditLog w ++ extra)%list (requests w)).
Proof.
  destruct (i <? n - 1).
  - exists [entry_retry logContext].
    destruct (addLogEntry_cases C (entry_retry logContext) w)
      as [-> | (t & _ & ->)]; eexists; reflexivity.
  - exists [], (Returned tt). unfold ret. rewrite app_nil_r. now destruct w.
Qed.

(** The loop issues the requests of a prefix of its candidates, in their
    order, appends to the audit trail and leaves the storage alone. *)
Lemma rotate_frame (C : Collaborators) (endpoint logContext : string)
    (requestBody : JsonValue) (n : nat) (remaining : list Credential) :
  forall i lastError w,
  exists (m : nat) (new : list LogEntry),
    m <= length remaining /\
    snd (rotate C endpoint requestBody logContext n i remaining lastError w)
    = mkWorld (veoAuthTokens w) (auditLog w ++ new)%list
        (requests w ++
         map (fun c => request_for C endpoint requestBody (token c))
             (firstn m remaining))%list.
Proof.
  induction remaining as [| c rest IH]; intros i lastError w; cbn [rotate].
  - exists 0. destruct lastError as [e |].
    + unfold bind.
      destruct (addLogEntry_cases C (entry_exhausted logContext e) w)
        as [-> | (t & _ & ->)];
        exists [entry_exhausted logContext e];
        (split; [apply Nat.le_refl |]); cbn; now rewrite app_nil_r.
    + exists []. split; [apply Nat.le_refl |]. cbn. rewrite !app_nil_r.
      now destruct w.
  - unfold bind at 1.
    destruct (addLogEntry_cases C (entry_attempt logContext i (token c)) w)
      as [-> | (t & _ & ->)].
    2:{ exists 0, [entry_attempt logContext i (token c)].
        split; [apply Nat.le_0_l |]. cbn. now rewrite app_nil_r. }
    unfold bind at 1. rewrite attempt_run.
    cbn [logged veoAuthTokens auditLog requests].
    destruct (settle C (token c) _) as [e | result].
    2:{ exists 1, [entry_attempt logContext i (token c)].
        split; [cbn; lia |]. reflexivity. }
    set (w1 := mkWorld (veoAuthTokens w)
                 (auditLog w ++ [entry_attempt logContext i (token c)])%list
                 (requests w ++ [request_for C endpoint requestBody (token c)])%list).
    unfold bind at 1.
    destruct (addLogEntry_cases C (entry_failed logContext i (err_message e)) w1)
      as [-> | (t & _ & ->)].
    2:{ exists 1. eexists. split; [cbn; lia |]. unfold logged, w1. cbn.
        now rewrite <- app_assoc. }
    unfold bind at 1.
    destruct (retry_step C logContext n i
                (logged w1 (entry_failed logContext i (err_message e))))
      as (extra & [[] | t] & ->).
    + destruct (IH (S i) (Some e)
                  (mkWorld
                     (veoAuthTokens
                        (logged w1 (entry_failed logContext i (err_message e))))
                     (auditLog
                        (logged w1 (entry_failed logContext i (err_message e)))
                      ++ extra)%list
                     (requests
                        (logged w1 (entry_failed logContext i (err_message e))))))
        as (m & new & bound & ->).
      exists (S m). eexists. split; [cbn; lia |].
      unfold logged, w1. cbn [veoAuthTokens auditLog requests firstn map].
      now rewrite <- !app_assoc.
    + exists 1. eexists. split; [cbn; lia |]. unfold logged, w1. cbn.
      now rewrite <- !app_assoc.
Qed.

Lemma refetch_frame (C : Collaborators) (logContext : string) (w : World) :
  exists (new : list LogEntry) (after : option string),
    snd (refetch C logContext w)
    = mkWorld after (auditLog w ++ new)%list (requests w) /\
    (after = veoAuthTokens w \/
     exists newTokens,
       getVeoAuthTokens C = RefreshReturns (Some newTokens) /\
       newTokens <> [] /\
       after = Some (JSON_stringify_tokens C newTokens)).
Proof.
  unfold refetch, bind.
  destruct (addLogEntry_cases C (entry_session_empty logContext) w)
    as [-> | (t & _ & ->)].
  2:{ exists [entry_session_empty logContext], (veoAuthTokens w).
      split; [reflexivity | now left]. }
  destruct (getVeoAuthTokens C) as [[newTokens |] | e] eqn:refresh.
  - destruct (0 <? length newTokens) eqn:some.
    2:{ exists [entry_session_empty logContext], (veoAuthTokens w).
        split; [reflexivity | now left]. }
    assert (newTokens <> []) as nonempty
      by (intros ->; cbn in some; discriminate).
    unfold bind, try_catch, sessionStorage_setItem.
    cbn [logged veoAuthTokens auditLog requests].
    set (w1 := mkWorld _ _ _).
    destruct (addLogEntry_cases C
                (entry_refetched logContext (length newTokens)) w1)
      as [-> | (t & _ & ->)].
    + eexists. exists (Some (JSON_stringify_tokens C newTokens)).
      split; [unfold ret, logged, w1; cbn; now rewrite <- app_assoc |].
      right. now exists newTokens.
    + destruct (addLogEntry_cases C (entry_refetch_failed logContext t)
                  (logged w1 (entry_refetched logContext (length newTokens))))
        as [-> | (t' & _ & ->)];
        eexists; exists (Some (JSON_stringify_tokens C newTokens));
        (split; [unfold ret, logged, w1; cbn; now rewrite <- !app_assoc |]);
        right; now exists newTokens.
  - exists [entry_session_empty logContext], (veoAuthTokens w).
    split; [reflexivity | now left].
  - unfold bind.
    destruct (addLogEntry_cases C (entry_refetch_failed logContext e)
                (logged w (entry_session_empty logContext)))
      as [-> | (t' & _ & ->)];
      eexists; exists (veoAuthTokens w);
      (split; [unfold ret, logged; cbn; now rewrite <- !app_assoc | now left]).
Qed.

Lemma getTokens_nothing (C : Collaborators) (w w' : World) :
  getTokens C w = (Returned [], w') -> unusable C (veoAuthTokens w).
Proof.
  intros run.
  destruct (unusable_or_usable C (veoAuthTokens w)) as [bad | (cached & good)];
    [exact bad |].
  rewrite (@getTokens_usable C w cached good) in run.
  destruct good as (_ & _ & _ & _ & nonempty). congruence.
Qed.

Lemma resolve_frame (C : Collaborators) (logContext : string)
    (specificToken : option string) (w : World) :
  exists (new : list LogEntry) (after : option string),
    snd (resolve_tokens C logContext specificToken w)
    = mkWorld after (auditLog w ++ new)%list (requests w) /\
    slot_after C specificToken (veoAuthTokens w) after.
Proof.
  unfold resolve_tokens, bind.
  destruct (initial_tokens_run C specificToken w) as [tokens run].
  rewrite run.
  destruct ((length tokens =? 0) && negb (provided specificToken)) eqn:refresh.
  - apply andb_prop in refresh. destruct refresh as [none unpinned].
    apply Nat.eqb_eq in none. apply negb_true_iff in unpinned.
    assert (unusable C (veoAuthTokens w)) as bad.
    { destruct tokens; [| discriminate none].
      unfold initial_tokens in run. rewrite unpinned in run.
      destruct specificToken; now apply getTokens_nothing in run. }
    destruct (refetch_frame C logContext w) as (new & after & -> & slots).
    exists new, after. split; [reflexivity |].
    destruct slots as [-> | found]; [now left | right; now repeat split].
  - exists [], (veoAuthTokens w). cbn. rewrite app_nil_r.
    split; [now destruct w | now left].
Qed.

(** Storage, audit trail and requests after a dispatch. *)
Lemma dispatch_frame (C : Collaborators) (endpoint logContext : string)
    (requestBody : JsonValue) (specificToken : option string) (w : World) :
  exists (m : nat) (new : list LogEntry) (after : option string),
    m <= length (resolved C logContext specificToken w) /\
    snd (fetchWithTokenRotation C endpoint requestBody logContext
           specificToken w)
    = mkWorld after (auditLog w ++ new)%list
        (requests w ++
         map (fun c => request_for C endpoint requestBody (token c))
             (firstn m (resolved C logContext specificToken w)))%list /\
    slot_after C specificToken (veoAuthTokens w) after.
Proof.
  destruct (resolve_frame C logContext specificToken w)
    as (new & after & world & slots).
  unfold resolved, fetchWithTokenRotation, bind.
  destruct (resolve_tokens C logContext specificToken w) as [[tokens | t] w1].
  - cbn [fst snd] in *. subst w1.
    destruct (length tokens =? 0).
    + exists 0, new, after. split; [apply Nat.le_0_l |].
      cbn. now rewrite app_nil_r.
    + destruct (rotate_frame C endpoint logContext requestBody
                  (length tokens) tokens 0 None
                  (mkWorld after (auditLog w ++ new)%list (requests w)))
        as (m & more & bound & ->).
      exists m, (new ++ more)%list, after. split; [exact bound |].
      cbn [veoAuthTokens auditLog requests]. now rewrite <- app_assoc.
  - cbn [fst snd] in *. subst w1. exists 0, new, after.
    split; [apply Nat.le_0_l |]. cbn. now rewrite app_nil_r.
Qed.

Lemma dispatch_slot (C : Collaborators) (endpoint logContext : string)
    (requestBody : JsonValue) (specificToken : option string) (w : World) :
  veoAuthTokens (snd (fetchWithTokenRotation C endpoint requestBody logContext
                        specificToken w))
  = veoAuthTokens (snd (resolve_tokens C logContext specificToken w)).
Proof.
  unfold fetchWithTokenRotation, bind.
  destruct (resolve_tokens C logContext specificToken w) as [[tokens | t] w1];
    [| reflexivity].
  destruct (length tokens =? 0); [reflexivity |].
  destruct (rotate_frame C endpoint logContext requestBody (length tokens)
              tokens 0 None w1) as (m & new & _ & ->).
  reflexivity.
Qed.

Lemma refetch_slot_stored (C : Collaborators) (logContext : string) (w : World)
    (newTokens : list Credential) :
  sink C (auditLog w) (entry_session_empty logContext) = None ->
  getVeoAuthTokens C = RefreshReturns (Some newTokens) ->
  newTokens <> [] ->
  veoAuthTokens (snd (refetch C logContext w))
  = Some (JSON_stringify_tokens C newTokens).
Proof.
  intros first refresh nonempty. unfold refetch, bind, addLogEntry at 1.
  rewrite first, refresh.
  replace (0 <? length newTokens) with true
    by (symmetry; apply Nat.ltb_lt; destruct newTokens; [congruence | cbn; lia]).
  unfold bind, try_catch, sessionStorage_setItem.
  match goal with
  | |- context [addLogEntry C ?entry ?w1] =>
      destruct (addLogEntry_cases C entry w1) as [-> | (t & _ & ->)]
  end; [reflexivity |].
  match goal with
  | |- context [addLogEntry C ?entry ?w1] =>
      destruct (addLogEntry_cases C entry w1) as [-> | (t' & _ & ->)]
  end; reflexivity.
Qed.

Lemma refetch_slot_kept (C : Collaborators) (logContext : string) (w : World) :
  (exists t, sink C (auditLog w) (entry_session_empty logContext) = Some t) \/
  yields_nothing (getVeoAuthTokens C) ->
  veoAuthTokens (snd (refetch C logContext w)) = veoAuthTokens w.
Proof.
  intros reason.
  destruct (refetch_frame C logContext w) as (new & after & world & slots).
  rewrite world. cbn [veoAuthTokens].
  destruct slots as [-> | (newTokens & refresh & nonempty & ->)];
    [reflexivity |].
  destruct reason as [(t & first) | nothing].
  - revert world. unfold refetch, bind, addLogEntry at 1. rewrite first.
    cbn [snd]. intros [= <- _]. reflexivity.
  - rewrite refresh in nothing. cbn in nothing. congruence.
Qed.

(** X3. When a dispatch writes the session cache, and when it does not.
    If no credential is pinned, the cache is unusable, the call of the sink
    at line 61 returns and the refresh returns a non-empty list, the cache
    holds the serialised list after the dispatch, whatever happens later
    (a failing rotation, a sink that throws afterwards).  In every other
    case - a pinned credential, a usable cache, a refresh that throws or
    returns nothing, a sink that throws at line 61 - the cache is what it
    was: it is never cleared and never written from anything else. *)
Theorem dispatch_writes_the_cache_only_on_refresh
    (C : Collaborators) (endpoint logContext : string)
    (requestBody : JsonValue) (specificToken : option string) (w : World) :
  let after :=
    veoAuthTokens (snd (fetchWithTokenRotation C endpoint requestBody
                          logContext specificToken w)) in
  (forall newTokens,
      provided specificToken = false ->
      unusable C (veoAuthTokens w) ->
      sink C (auditLog w) (entry_session_empty logContext) = None ->
      getVeoAuthTokens C = RefreshReturns (Some newTokens) ->
      newTokens <> [] ->
      after = Some (JSON_stringify_tokens C newTokens)) /\
  (provided specificToken = true -> after = veoAuthTokens w) /\
  (forall cached, usable C (veoAuthTokens w) cached ->
                  after = veoAuthTokens w) /\
  (yields_nothing (getVeoAuthTokens C) -> after = veoAuthTokens w) /\
  (forall t, sink C (auditLog w) (entry_session_empty logContext) = Some t ->
             after = veoAuthTokens w).
Proof.
  intros after. unfold after. rewrite dispatch_slot.
  assert (provided specificToken = true ->
          resolve_tokens C logContext specificToken w
          = (Returned (match specificToken with
                       | Some s => [mkCredential s "N/A"]
                       | None => []
                       end), w)) as pinned.
  { intros truthy_pin. destruct specificToken as [s |]; [| discriminate].
    apply resolve_tokens_pinned. intros ->. discriminate truthy_pin. }
  assert (forall cached, usable C (veoAuthTokens w) cached ->
            veoAuthTokens (snd (resolve_tokens C logContext specificToken w))
            = veoAuthTokens w) as from_cache.
  { intros cached good. destruct (provided specificToken) eqn:pin.
    - now rewrite pinned.
    - now rewrite (@resolve_tokens_usable C logContext specificToken w cached). }
  assert ((exists t, sink C (auditLog w) (entry_session_empty logContext)
                     = Some t) \/
          yields_nothing (getVeoAuthTokens C) ->
          veoAuthTokens (snd (resolve_tokens C logContext specificToken w))
          = veoAuthTokens w) as kept.
  { intros reason. destruct (provided specificToken) eqn:pin.
    - now rewrite pinned.
    - destruct (unusable_or_usable C (veoAuthTokens w)) as [bad | (cached & good)].
      + rewrite resolve_tokens_unusable by assumption.
        now apply refetch_slot_kept.
      + now apply (from_cache cached). }
  split; [| split; [| split; [| split]]].
  - intros newTokens unpinned bad first refresh nonempty.
    rewrite resolve_tokens_unusable by assumption.
    now apply refetch_slot_stored.
  - intros truthy_pin. now rewrite pinned.
  - exact from_cache.
  - intros nothing. apply kept. now right.
  - intros t first. apply kept. left. now exists t.
Qed.

(** An empty session, a refresh returning [[B, C]], and a sink that throws
    from line 74 on: the list is stored all the same. *)
Lemma dispatch_writes_the_cache_only_on_refresh_witness :
  let thrown := ThrownError (mkError "Error" "log store full") in
  veoAuthTokens
    (snd (fetchWithTokenRotation
            (sample refresh_B_C (sink_failing_at_line_74 thrown))
            "/api/veo/generate-t2v" JNull "VEO T2V" None fresh_session))
  = Some "[B,C]".
Proof.
  intros thrown.
  destruct (@dispatch_writes_the_cache_only_on_refresh
              (sample refresh_B_C (sink_failing_at_line_74 thrown))
              "/api/veo/generate-t2v" "VEO T2V" JNull None fresh_session)
    as (stored & _).
  apply (stored [credential_B; credential_C]).
  - reflexivity.
  - apply cache_missing.
  - reflexivity.
  - reflexivity.
  - discriminate.
Defined.

(** X4. Whatever the collaborators do, a dispatch only appends: the audit
    entries and the requests that were there stay, in place.  The requests
    it adds are those of the first [m] resolved candidates, in list order
    and one each, for some [m] up to the number of candidates: no candidate
    is skipped, tried twice or tried out of turn. *)
Theorem dispatch_appends_requests_in_candidate_order
    (C : Collaborators) (endpoint logContext : string)
    (requestBody : JsonValue) (specificToken : option string) (w : World) :
  let after := snd (fetchWithTokenRotation C endpoint requestBody logContext
                      specificToken w) in
  let candidates := resolved C logContext specificToken w in
  exists (m : nat) (new : list LogEntry),
    m <= length candidates /\
    auditLog after = (auditLog w ++ new)%list /\
    requests after =
      (requests w ++
       map (fun c => request_for C endpoint requestBody (token c))
           (firstn m candidates))%list.
Proof.
  destruct (dispatch_frame C endpoint logContext requestBody specificToken w)
    as (m & new & after & bound & -> & _).
  exists m, new. now repeat split.
Qed.

(** X5. Whatever the collaborators do, every request a dispatch issues is a
    [POST] to the endpoint it was given, with content type
    [application/json], the serialised request body, and [Bearer] followed
    by the token of one of the resolved candidates: no token goes to another
    URL and no other token is sent. *)
Theorem dispatch_sends_only_candidate_tokens_to_the_endpoint
    (C : Collaborators) (endpoint logContext : string)
    (requestBody : JsonValue) (specificToken : option string) (w : World) :
  exists issued : list Request,
    requests (snd (fetchWithTokenRotation C endpoint requestBody logContext
                     specificToken w))
    = (requests w ++ issued)%list /\
    Forall (sent_for C endpoint requestBody
              (resolved C logContext specificToken w)) issued.
Proof.
  destruct (dispatch_frame C endpoint logContext requestBody specificToken w)
    as (m & new & after & _ & -> & _).
  eexists. split; [reflexivity |].
  apply Forall_forall. intros r listed.
  apply in_map_iff in listed. destruct listed as (c & <- & among).
  repeat split. exists c. split; [| reflexivity].
  rewrite <- (firstn_skipn m). apply in_or_app. now left.
Qed.

(* ------------------------------------------------------------------ *)
(** ** Where a returned result comes from *)

Lemma settle_returned (C : Collaborators) (tok : string)
    (answer : FetchOutcome) (result : DispatchResult) :
  settle C tok answer = inr result ->
  exists response,
    answer = FetchResponds response /\
    resp_ok response = true /\
    resp_json response = inr (data result) /\
    successfulToken result = tok.
Proof.
  unfold settle. destruct answer as [e | response]; [discriminate |].
  destruct (resp_json response) as [e | body] eqn:parsed; [discriminate |].
  destruct (resp_ok response) eqn:ok; cbn [negb].
  - intros [= <-]. exists response. now repeat split.
  - destruct body; discriminate.
Qed.

Lemma settle_caught (C : Collaborators) (tok : string)
    (answer : FetchOutcome) (e : JsError) :
  settle C tok answer = inl e -> succeeds answer = false.
Proof.
  intros caught. destruct (succeeds answer) eqn:ok; [| reflexivity].
  unfold succeeds in ok. destruct answer as [e' | response]; [discriminate |].
  apply andb_prop in ok. destruct ok as [ok parsed].
  destruct (resp_json response) as [e' | body] eqn:json; [discriminate |].
  now rewrite (settle_success C tok response ok json) in caught.
Qed.

Lemma answer_at_cons (C : Collaborators) (endpoint : string)
    (requestBody : JsonValue) (before : list Request) (c : Credential)
    (rest : list Credential) (j : nat) :
  answer_at C endpoint requestBody before (c :: rest) (S j) =
  answer_at C endpoint requestBody
    (before ++ [request_for C endpoint requestBody (token c)])%list rest j.
Proof.
  unfold answer_at. cbn [nth_error firstn map]. now rewrite <- app_assoc.
Qed.

Lemma answer_at_head (C : Collaborators) (endpoint : string)
    (requestBody : JsonValue) (before : list Request) (c : Credential)
    (rest : list Credential) :
  answer_at C endpoint requestBody before (c :: rest) 0 =
  Some (fetch C before (request_for C endpoint requestBody (token c))).
Proof.
  unfold answer_at. cbn. now rewrite app_nil_r.
Qed.

(** A result the loop returns is the body of an OK answer to the request
    of some candidate, all candidates ahead of it having failed. *)
Lemma rotate_returned (C : Collaborators) (endpoint logContext : string)
    (requestBody : JsonValue) (n : nat) (remaining : list Credential) :
  forall i lastError w result w',
    rotate C endpoint requestBody logContext n i remaining lastError w
    = (Returned result, w') ->
    exists (k : nat) (candidate : Credential) (response : Response),
      nth_error remaining k = Some candidate /\
      answer_at C endpoint requestBody (requests w) remaining k
      = Some (FetchResponds response) /\
      resp_ok response = true /\
      resp_json response = inr (data result) /\
      successfulToken result = token candidate /\
      (forall j o, j < k ->
                   answer_at C endpoint requestBody (requests w) remaining j
                   = Some o ->
                   succeeds o = false) /\
      requests w' =
        (requests w ++
         map (fun c => request_for C endpoint requestBody (token c))
             (firstn (S k) remaining))%list.
Proof.
  induction remaining as [| c rest IH]; intros i lastError w result w' run;
    cbn [rotate] in run.
  - destruct lastError as [e |]; [| discriminate run]. unfold bind in run.
    destruct (addLogEntry C (entry_exhausted logContext e) w) as [[[] | t] w1];
      discriminate run.
  - unfold bind at 1 in run.
    destruct (addLogEntry_cases C (entry_attempt logContext i (token c)) w)
      as [step | (t & _ & step)]; rewrite step in run; [| discriminate run].
    unfold bind at 1 in run. rewrite attempt_run in run.
    cbn [logged veoAuthTokens auditLog requests] in run.
    destruct (settle C (token c)
                (fetch C (requests w)
                   (request_for C endpoint requestBody (token c))))
      as [e | returned] eqn:settled.
    + unfold bind at 1 in run.
      match type of run with
      | context [addLogEntry C ?entry ?w1] =>
          destruct (addLogEntry_cases C entry w1)
            as [failed | (t & _ & failed)]; rewrite failed in run;
            [| discriminate run]
      end.
      unfold bind at 1 in run.
      match type of run with
      | context [(if i <? n - 1 then _ else _) ?w2] =>
          destruct (retry_step C logContext n i w2) as (extra & [[] | t] & retried);
            rewrite retried in run; [| discriminate run]
      end.
      apply IH in run.
      destruct run as (k & candidate & response & at_k & answer & ok & parsed
                       & used & fails & issued).
      cbn [logged veoAuthTokens auditLog requests] in answer, fails, issued.
      exists (S k), candidate, response. split; [exact at_k |].
      split; [now rewrite answer_at_cons |]. repeat split; try assumption.
      * intros [| j] o before at_j.
        -- rewrite answer_at_head in at_j. injection at_j as <-.
           now apply (settle_caught C (token c) _ settled).
        -- rewrite answer_at_cons in at_j. apply (fails j o); [lia | exact at_j].
      * rewrite issued. cbn [firstn map]. now rewrite <- app_assoc.
    + injection run as <- <-.
      destruct (settle_returned C (token c) _ settled)
        as (response & answer & ok & parsed & used).
      exists 0, c, response. split; [reflexivity |].
      split; [now rewrite answer_at_head, answer |].
      repeat split; try assumption. intros j o before. lia.
Qed.

(** X6. Whatever the collaborators do, a dispatch that returns a result
    returns the parsed body of an answer with an OK status, given to the
    request that carried the returned token; that token is the one of a
    resolved candidate, every candidate ahead of it was tried and failed,
    and its request is the last one issued. *)
Theorem a_returned_result_is_a_successful_answer
    (C : Collaborators) (endpoint logContext : string)
    (requestBody : JsonValue) (specificToken : option string)
    (w w' : World) (result : DispatchResult) :
  fetchWithTokenRotation C endpoint requestBody logContext specificToken w
    = (Returned result, w') ->
  let candidates := resolved C logContext specificToken w in
  exists (k : nat) (candidate : Credential) (response : Response),
    nth_error candidates k = Some candidate /\
    answer_at C endpoint requestBody (requests w) candidates k
    = Some (FetchResponds response) /\
    resp_ok response = true /\
    resp_json response = inr (data result) /\
    successfulToken result = token candidate /\
    (forall j o, j < k ->
                 answer_at C endpoint requestBody (requests w) candidates j
                 = Some o ->
                 succeeds o = false) /\
    requests w' =
      (requests w ++
       map (fun c => request_for C endpoint requestBody (token c))
           (firstn (S k) candidates))%list.
Proof.
  intros run candidates. unfold candidates, resolved.
  pose proof (resolve_tokens_requests C logContext specificToken w) as same.
  unfold fetchWithTokenRotation, bind in run.
  destruct (resolve_tokens C logContext specificToken w) as [[tokens | t] w1];
    [| discriminate run].
  cbn [fst snd] in *.
  destruct (length tokens =? 0); [discriminate run |].
  apply rotate_returned in run. now rewrite same in run.
Qed.

(* ------------------------------------------------------------------ *)
(** ** The three ways a dispatch ends *)

Lemma succeeds_true (answer : FetchOutcome) :
  succeeds answer = true ->
  exists response body,
    answer = FetchResponds response /\
    resp_ok response = true /\ resp_json response = inr body.
Proof.
  unfold succeeds. destruct answer as [e | response]; [discriminate |].
  intros ok. apply andb_prop in ok. destruct ok as [ok parsed].
  destruct (resp_json response) as [e | body] eqn:json; [discriminate |].
  now exists response, body.
Qed.

(** Either every candidate fails, or there is a first one that succeeds. *)
Lemma first_success_or_none (C : Collaborators) (endpoint : string)
    (requestBody : JsonValue) (tokens : list Credential) :
  forall before,
    (forall j o, answer_at C endpoint requestBody before tokens j = Some o ->
                 succeeds o = false) \/
    exists (k : nat) (response : Response) (body : JsonValue),
      answer_at C endpoint requestBody before tokens k
      = Some (FetchResponds response) /\
      resp_ok response = true /\ resp_json response = inr body /\
      forall j o, j < k ->
                  answer_at C endpoint requestBody before tokens j = Some o ->
                  succeeds o = false.
Proof.
  induction tokens as [| c rest IH]; intros before.
  - left. intros [| j] o; discriminate.
  - destruct (succeeds (fetch C before
                          (request_for C endpoint requestBody (token c))))
      eqn:first.
    + right.
      destruct (succeeds_true _ first) as (response & body & answered & ok & json).
      exists 0, response, body. rewrite answer_at_head, answered.
      repeat split; try assumption. intros j o before_0. lia.
    + destruct (IH (before ++ [request_for C endpoint requestBody (token c)])%list)
        as [fails | (k & response & body & answer & ok & json & fails)].
      * left. intros [| j] o at_j.
        -- rewrite answer_at_head in at_j. now injection at_j as <-.
        -- rewrite answer_at_cons in at_j. now apply (fails j).
      * right. exists (S k), response, body. rewrite answer_at_cons.
        repeat split; try assumption.
        intros [| j] o before_k at_j.
        -- rewrite answer_at_head in at_j. now injection at_j as <-.
        -- rewrite answer_at_cons in at_j. apply (fails j o); [lia | exact at_j].
Qed.

Lemma refetch_returns (C : Collaborators) (logContext : string) (w : World) :
  returns_normally C ->
  exists tokens w1, refetch C logContext w = (Returned tokens, w1).
Proof.
  intros quiet. unfold refetch, bind.
  rewrite (addLogEntry_returns _ _ quiet).
  destruct (getVeoAuthTokens C) as [[newTokens |] | e].
  - destruct (0 <? length newTokens); [| now eexists; eexists].
    unfold bind, try_catch, sessionStorage_setItem.
    rewrite (addLogEntry_returns _ _ quiet). now eexists; eexists.
  - now eexists; eexists.
  - unfold bind. rewrite (addLogEntry_returns _ _ quiet). now eexists; eexists.
Qed.

Lemma resolve_tokens_returns (C : Collaborators) (logContext : string)
    (specificToken : option string) (w : World) :
  returns_normally C ->
  exists tokens w1,
    resolve_tokens C logContext specificToken w = (Returned tokens, w1).
Proof.
  intros quiet. unfold resolve_tokens, bind.
  destruct (initial_tokens_run C specificToken w) as [tokens ->].
  destruct ((length tokens =? 0) && negb (provided specificToken)).
  - now apply refetch_returns.
  - now exists tokens, w.
Qed.

(** The loop when candidate [k] is the first to succeed. *)
Lemma rotate_first_success (C : Collaborators) (endpoint logContext : string)
    (requestBody : JsonValue) (tokens : list Credential) (w : World)
    (k : nat) (response : Response) (body : JsonValue) :
  returns_normally C ->
  (forall j o, j < k ->
               answer_at C endpoint requestBody (requests w) tokens j = Some o ->
               succeeds o = false) ->
  answer_at C endpoint requestBody (requests w) tokens k
    = Some (FetchResponds response) ->
  resp_ok response = true ->
  resp_json response = inr body ->
  exists (candidate : Credential) (w' : World),
    nth_error tokens k = Some candidate /\
    rotate C endpoint requestBody logContext (length tokens) 0 tokens None w
    = (Returned (mkResult body (token candidate)), w') /\
    requests w' =
      (requests w ++
       map (fun c => request_for C endpoint requestBody (token c))
           (firstn (S k) tokens))%list.
Proof.
  intros quiet fails answer ok parsed.
  destruct (nth_error tokens k) as [candidate |] eqn:at_k;
    [| unfold answer_at in answer; now rewrite at_k in answer].
  destruct (nth_error_split tokens k at_k) as (front & back & split & len).
  subst tokens k.
  rewrite answer_at_split in answer. injection answer as answer.
  destruct (rotate_failing_prefix endpoint logContext requestBody quiet
              (length (front ++ candidate :: back)) front 0
              (candidate :: back) None w)
    as (errors & _ & _ & run).
  { intros j o at_j.
    assert (j < length front) as inside.
    { unfold answer_at in at_j.
      destruct (nth_error front j) eqn:E; [| discriminate].
      apply nth_error_Some. congruence. }
    apply (fails j o inside). now rewrite answer_at_prefix. }
  exists candidate. eexists. split; [reflexivity |].
  rewrite run.
  erewrite rotate_successful_attempt; [| exact quiet |].
  - split; [reflexivity |]. cbn [requests].
    now rewrite firstn_succ_split, map_app, app_assoc.
  - cbn [requests]. rewrite answer. now apply settle_success.
Qed.

(** X7. With an audit sink that returns normally, every dispatch ends in
    one of three ways, which exclude one another.  No candidate was
    resolved: it throws the error of line 97 and issues no request.  Some
    candidate [k] is the first to succeed - its request is answered with an
    OK status and a body that parses, every candidate before it fails: it
    returns that very body with that candidate's token, after [k + 1]
    requests.  Every candidate fails: it throws the error caught for the
    last one, after one request per candidate.  There is no mixed
    outcome. *)
Theorem a_dispatch_ends_in_one_of_three_ways
    (C : Collaborators) (endpoint logContext : string)
    (requestBody : JsonValue) (specificToken : option string) (w : World) :
  returns_normally C ->
  let candidates := resolved C logContext specificToken w in
  let run := fetchWithTokenRotation C endpoint requestBody logContext
               specificToken w in
  let request_of := fun c => request_for C endpoint requestBody (token c) in
  let answer := answer_at C endpoint requestBody (requests w) candidates in
  (candidates = [] /\
   fst run = Threw (ThrownError (no_tokens_error logContext)) /\
   requests (snd run) = requests w) \/
  (exists (k : nat) (candidate : Credential) (response : Response)
          (body : JsonValue),
      nth_error candidates k = Some candidate /\
      answer k = Some (FetchResponds response) /\
      resp_ok response = true /\
      resp_json response = inr body /\
      (forall j o, j < k -> answer j = Some o -> succeeds o = false) /\
      fst run = Returned (mkResult body (token candidate)) /\
      requests (snd run)
      = (requests w ++ map request_of (firstn (S k) candidates))%list) \/
  (candidates <> [] /\
   (forall j o, answer j = Some o -> succeeds o = false) /\
   exists (final : Credential) (last_answer : FetchOutcome) (e : JsError),
     nth_error candidates (length candidates - 1) = Some final /\
     answer (length candidates - 1) = Some last_answer /\
     settle C (token final) last_answer = inl e /\
     fst run = Threw (ThrownError e) /\
     requests (snd run) = (requests w ++ map request_of candidates)%list).
Proof.
  intros quiet candidates run request_of answer.
  destruct (resolve_tokens_returns logContext specificToken w quiet)
    as (tokens & w1 & resolved_to).
  pose proof (resolve_tokens_requests C logContext specificToken w) as same.
  assert (candidates = tokens) as is_tokens
    by (unfold candidates, resolved; now rewrite resolved_to).
  unfold answer. rewrite is_tokens. clear answer.
  rewrite resolved_to in same. cbn [snd] in same.
  unfold run, fetchWithTokenRotation, bind. rewrite resolved_to.
  destruct tokens as [| c rest] eqn:shape.
  { left. cbn. now repeat split. }
  rewrite <- shape in *.
  assert (tokens <> []) as nonempty by (rewrite shape; discriminate).
  replace (length tokens =? 0) with false
    by (symmetry; apply Nat.eqb_neq; rewrite shape; cbn; lia).
  right. rewrite <- same.
  destruct (first_success_or_none C endpoint requestBody tokens (requests w1))
    as [fails | (k & response & body & success & ok & json & fails)].
  - right. split; [exact nonempty |]. split; [exact fails |].
    destruct (@rotate_all_fail C endpoint logContext requestBody tokens w1
                quiet nonempty fails)
      as (errors & e & len & each & at_last & ->).
    destruct (nth_error tokens (length tokens - 1)) as [final |] eqn:at_final.
    2:{ apply nth_error_None in at_final. rewrite shape in at_final.
        cbn [length] in at_final. lia. }
    specialize (each _ _ _ at_final at_last).
    destruct (answer_at C endpoint requestBody (requests w1) tokens
                (length tokens - 1)) as [last_answer |] eqn:at_answer;
      [| discriminate].
    cbn [option_map] in each. injection each as caught.
    exists final, last_answer, e. repeat split; assumption.
  - left.
    destruct (@rotate_first_success C endpoint logContext requestBody tokens w1
                k response body quiet fails success ok json)
      as (candidate & w' & at_k & -> & issued).
    exists k, candidate, response, body. cbn [fst snd].
    repeat split; assumption.
Qed.

(* ------------------------------------------------------------------ *)
(** ** A sink that throws *)

(** X8. With an audit sink that throws on every call, every dispatch -
    pinned or not, with a usable cache or not - ends with the value the sink
    threw, after handing over a single entry: no request is issued and the
    session cache is not touched, since a call of the sink comes before
    every other effect. *)
Theorem a_sink_that_always_throws_stops_the_dispatch
    (C : Collaborators) (t : Thrown) (endpoint logContext : string)
    (requestBody : JsonValue) (specificToken : option string) (w : World) :
  exists entry : LogEntry,
    fetchWithTokenRotation (with_sink C (throwing_sink t)) endpoint requestBody
      logContext specificToken w
    = (Threw t, logged w entry).
Proof.
  unfold fetchWithTokenRotation, resolve_tokens, bind.
  destruct (initial_tokens_run (with_sink C (throwing_sink t)) specificToken w)
    as [tokens run].
  rewrite run.
  destruct tokens as [| c rest].
  - assert (provided specificToken = false) as unpinned.
    { destruct (provided specificToken) eqn:pinned; [| reflexivity].
      unfold initial_tokens in run.
      destruct specificToken; [| discriminate pinned].
      rewrite pinned in run. discriminate run. }
    rewrite unpinned. cbn [length Nat.eqb negb andb].
    exists (entry_session_empty logContext). reflexivity.
  - cbn [length Nat.eqb andb]. unfold ret.
    exists (entry_attempt logContext 0 (token c)). reflexivity.
Qed.

(* ------------------------------------------------------------------ *)
(** ** The refresh *)

Lemma refetch_stores (C : Collaborators) (logContext : string) (w : World)
    (newTokens : list Credential) :
  returns_normally C ->
  getVeoAuthTokens C = RefreshReturns (Some newTokens) ->
  newTokens <> [] ->
  refetch C logContext w =
  (Returned newTokens,
   mkWorld (Some (JSON_stringify_tokens C newTokens))
     (auditLog w ++ [entry_session_empty logContext;
                     entry_refetched logContext (length newTokens)])%list
     (requests w)).
Proof.
  intros quiet refresh nonempty. unfold refetch, bind.
  rewrite (addLogEntry_returns _ _ quiet), refresh.
  replace (0 <? length newTokens) with true
    by (symmetry; apply Nat.ltb_lt; destruct newTokens; [congruence | cbn; lia]).
  unfold bind, try_catch, sessionStorage_setItem.
  rewrite (addLogEntry_returns _ _ quiet). unfold ret. cbn.
  now rewrite <- app_assoc.
Qed.

(** X9. When no credential is pinned, the cache is unusable and the refresh
    throws, the error of the refresh does not reach the caller: the dispatch
    throws the error of line 97 instead, issues no request and leaves the
    cache alone.  The refresh failure is kept in the audit trail, as an
    [Error] entry with the thrown error's message, or with [Unknown error]
    when the value thrown is no [Error]. *)
Theorem a_failed_refresh_is_logged_and_swallowed
    (C : Collaborators) (endpoint logContext : string)
    (requestBody : JsonValue) (specificToken : option string) (w : World)
    (thrown : Thrown) :
  returns_normally C ->
  provided specificToken = false ->
  unusable C (veoAuthTokens w) ->
  getVeoAuthTokens C = RefreshThrows thrown ->
  let text := match thrown with
              | ThrownError e => err_message e
              | ThrownOther => "Unknown error"
              end in
  fetchWithTokenRotation C endpoint requestBody logContext specificToken w
  = (Threw (ThrownError (no_tokens_error logContext)),
     mkWorld (veoAuthTokens w)
       (auditLog w ++
        [entry_session_empty logContext;
         mkLogEntry logContext "Auth Token Refresh"
           ("Failed to re-fetch tokens: " ++ text) 0 Error (Some text)])%list
       (requests w)).
Proof.
  intros quiet unpinned bad refresh text.
  unfold fetchWithTokenRotation, bind.
  rewrite resolve_tokens_unusable by assumption.
  unfold refetch, bind. rewrite (addLogEntry_returns _ _ quiet), refresh.
  unfold bind. rewrite (addLogEntry_returns _ _ quiet). cbn.
  now rewrite <- app_assoc.
Qed.

(** X10. A throw of the sink on the entry of line 74 happens inside the
    [try] block of the refresh and is caught at line 82.  The refreshed list
    has been stored and assigned by then, so resolution still yields it; the
    audit trail, though, gets a third entry that reports the refresh as
    failed, with the sink's error for message. *)
Theorem a_sink_failure_inside_the_refresh_is_caught
    (C : Collaborators) (logContext : string)
    (specificToken : option string) (w : World)
    (newTokens : list Credential) (thrown : Thrown) :
  provided specificToken = false ->
  unusable C (veoAuthTokens w) ->
  getVeoAuthTokens C = RefreshReturns (Some newTokens) ->
  newTokens <> [] ->
  sink C (auditLog w) (entry_session_empty logContext) = None ->
  sink C (auditLog w ++ [entry_session_empty logContext])%list
    (entry_refetched logContext (length newTokens)) = Some thrown ->
  sink C (auditLog w ++ [entry_session_empty logContext;
                         entry_refetched logContext (length newTokens)])%list
    (entry_refetch_failed logContext thrown) = None ->
  resolve_tokens C logContext specificToken w
  = (Returned newTokens,
     mkWorld (Some (JSON_stringify_tokens C newTokens))
       (auditLog w ++ [entry_session_empty logContext;
                       entry_refetched logContext (length newTokens);
                       entry_refetch_failed logContext thrown])%list
       (requests w)).
Proof.
  intros unpinned bad refresh nonempty first second third.
  rewrite resolve_tokens_unusable by assumption.
  unfold refetch, bind, addLogEntry at 1. rewrite first, refresh.
  replace (0 <? length newTokens) with true
    by (symmetry; apply Nat.ltb_lt; destruct newTokens; [congruence | cbn; lia]).
  unfold bind, try_catch, sessionStorage_setItem, addLogEntry.
  cbn [veoAuthTokens auditLog requests]. rewrite second.
  cbn [veoAuthTokens auditLog requests].
  rewrite <- app_assoc. cbn [app]. rewrite third. unfold ret.
  now rewrite <- app_assoc.
Qed.

(* ------------------------------------------------------------------ *)
(** ** A usable cache *)

Lemma bind_ext {A B} (m : M A) (k k' : A -> M B) (w : World) :
  (forall a w', k a w' = k' a w') -> bind m k w = bind m k' w.
Proof.
  intros same. unfold bind. destruct (m w) as [[a | t] w']; [apply same |].
  reflexivity.
Qed.

Lemma rotate_with_refresh (C : Collaborators) (refresh : RefreshOutcome)
    (endpoint logContext : string) (requestBody : JsonValue) (n : nat)
    (remaining : list Credential) :
  forall i lastError w,
    rotate (with_refresh C refresh) endpoint requestBody logContext n i
      remaining lastError w
    = rotate C endpoint requestBody logContext n i remaining lastError w.
Proof.
  induction remaining as [| c rest IH]; intros i lastError w; cbn [rotate].
  - reflexivity.
  - change (addLogEntry (with_refresh C refresh)) with (addLogEntry C).
    change (attempt (with_refresh C refresh)) with (attempt C).
    apply bind_ext. intros _ w1.
    apply bind_ext. intros [e | result] w2; [| reflexivity].
    apply bind_ext. intros _ w3.
    apply bind_ext. intros _ w4. apply IH.
Qed.

(** X11. When no credential is pinned and the cache is usable, the cached
    list is the list of candidates and resolution leaves the world as it
    was: no audit entry, no write.  The refresh plays no part: whatever
    [getVeoAuthTokens] would do, the dispatch is the same. *)
Theorem a_usable_cache_is_never_refreshed
    (C : Collaborators) (endpoint logContext : string)
    (requestBody : JsonValue) (specificToken : option string) (w : World)
    (cached : list Credential) :
  provided specificToken = false ->
  usable C (veoAuthTokens w) cached ->
  resolve_tokens C logContext specificToken w = (Returned cached, w) /\
  forall refresh : RefreshOutcome,
    fetchWithTokenRotation (with_refresh C refresh) endpoint requestBody
      logContext specificToken w
    = fetchWithTokenRotation C endpoint requestBody logContext specificToken w.
Proof.
  intros unpinned good. split; [now apply resolve_tokens_usable |].
  intros refresh. unfold fetchWithTokenRotation, bind.
  rewrite (@resolve_tokens_usable C logContext specificToken w cached)
    by assumption.
  rewrite (@resolve_tokens_usable (with_refresh C refresh) logContext
             specificToken w cached) by assumption.
  destruct (length cached =? 0); [reflexivity | apply rotate_with_refresh].
Qed.

(** X12. What a refresh stores, the next dispatch finds.  After a dispatch
    that met an unusable cache and a refresh returning a non-empty list, the
    cache holds the serialised list; when this text is not empty and
    [JSON.parse] reads the list back from it, an unpinned dispatch that
    follows resolves the same candidates from the cache, without a refresh,
    an audit entry or a write. *)
Theorem a_refreshed_list_serves_the_next_dispatch
    (C : Collaborators) (endpoint logContext : string)
    (requestBody : JsonValue) (specificToken : option string) (w : World)
    (newTokens : list Credential) (nextContext : string)
    (nextToken : option string) :
  returns_normally C ->
  provided specificToken = false ->
  unusable C (veoAuthTokens w) ->
  getVeoAuthTokens C = RefreshReturns (Some newTokens) ->
  newTokens <> [] ->
  JSON_stringify_tokens C newTokens <> "" ->
  JSON_parse C (JSON_stringify_tokens C newTokens)
    = Some (ParsedArray newTokens) ->
  provided nextToken = false ->
  let after := snd (fetchWithTokenRotation C endpoint requestBody logContext
                      specificToken w) in
  resolved C logContext specificToken w = newTokens /\
  veoAuthTokens after = Some (JSON_stringify_tokens C newTokens) /\
  resolve_tokens C nextContext nextToken after = (Returned newTokens, after).
Proof.
  intros quiet unpinned bad refresh nonempty filled round_trip next after.
  assert (resolve_tokens C logContext specificToken w
          = refetch C logContext w) as entered
    by now apply resolve_tokens_unusable.
  pose proof (@refetch_stores C logContext w newTokens quiet refresh nonempty)
    as stored.
  assert (veoAuthTokens after = Some (JSON_stringify_tokens C newTokens))
    as slot.
  { unfold after, fetchWithTokenRotation, bind. rewrite entered, stored.
    destruct (length newTokens =? 0); [reflexivity |].
    match goal with
    | |- context [rotate C endpoint requestBody logContext ?n 0 newTokens None ?w1] =>
        destruct (rotate_frame C endpoint logContext requestBody n newTokens
                    0 None w1) as (m & new & _ & ->)
    end.
    reflexivity. }
  split; [unfold resolved; now rewrite entered, stored |].
  split; [exact slot |].
  apply resolve_tokens_usable; [exact next |].
  exists (JSON_stringify_tokens C newTokens). now repeat split.
Qed.

(* ------------------------------------------------------------------ *)
(** ** Only the token of a credential is read *)

Lemma rotate_reads_tokens_only (C : Collaborators)
    (endpoint logContext : string) (requestBody : JsonValue) (n : nat)
    (tokens : list Credential) :
  forall (others : list Credential) i lastError w,
    map token tokens = map token others ->
    rotate C endpoint requestBody logContext n i tokens lastError w
    = rotate C endpoint requestBody logContext n i others lastError w.
Proof.
  induction tokens as [| c rest IH]; intros [| c' rest'] i lastError w same;
    try discriminate same; [reflexivity |].
  cbn [map] in same. injection same as head tail.
  cbn [rotate]. rewrite head.
  apply bind_ext. intros _ w1.
  apply bind_ext. intros [e | result] w2; [| reflexivity].
  apply bind_ext. intros _ w3.
  apply bind_ext. intros _ w4. now apply IH.
Qed.

(** X13. Of a credential the loop reads the token and nothing else.  Take
    two dispatches whose resolution (lines 56-93) returns lists with the
    same tokens in the same order and leaves worlds with the same audit
    trail and the same requests - the worlds in which the loop starts.  They
    end the same way: same result or error, same audit entries, same
    requests, whatever the [createdAt] fields are and whatever the storage
    holds. *)
Theorem only_the_token_of_a_credential_counts
    (C : Collaborators) (endpoint logContext : string)
    (requestBody : JsonValue) (specificToken specificToken' : option string)
    (w w1 w' w1' : World) (tokens tokens' : list Credential) :
  resolve_tokens C logContext specificToken w = (Returned tokens, w1) ->
  resolve_tokens C logContext specificToken' w' = (Returned tokens', w1') ->
  map token tokens = map token tokens' ->
  auditLog w1 = auditLog w1' ->
  requests w1 = requests w1' ->
  let run := fetchWithTokenRotation C endpoint requestBody logContext
               specificToken w in
  let run' := fetchWithTokenRotation C endpoint requestBody logContext
                specificToken' w' in
  fst run = fst run' /\
  auditLog (snd run) = auditLog (snd run') /\
  requests (snd run) = requests (snd run').
Proof.
  intros resolved_to resolved_to' same trail issued run run'.
  unfold run, run', fetchWithTokenRotation, bind.
  rewrite resolved_to, resolved_to'.
  assert (length tokens = length tokens') as len
    by (rewrite <- (length_map token tokens), same; apply length_map).
  rewrite len.
  destruct (length tokens' =? 0).
  - cbn. now repeat split.
  - rewrite (@rotate_reads_tokens_only C endpoint logContext requestBody
               (length tokens') tokens tokens' 0 None w1 same).
    destruct (@blind_rotate (veoAuthTokens w1) (veoAuthTokens w1') C endpoint
                logContext requestBody (length tokens') tokens' 0 None w1 w1')
      as (value & log & reqs & _).
    { repeat split; auto. }
    now repeat split.
Qed.

(* ------------------------------------------------------------------ *)
(** ** The end of the audit trail *)

(** X14. When every candidate fails, the audit trail of the dispatch ends
    with three entries: the start of the last attempt, its failure, and the
    summary.  The failure entry and the summary carry the same message,
    which is the message of the error the dispatch throws; no retry entry
    follows the last failure. *)
Theorem the_trail_of_an_exhausted_dispatch_ends_with_the_last_failure
    (C : Collaborators) (endpoint logContext : string)
    (requestBody : JsonValue) (specificToken : option string)
    (w0 w1 : World) (tokens : list Credential) :
  returns_normally C ->
  resolve_tokens C logContext specificToken w0 = (Returned tokens, w1) ->
  tokens <> [] ->
  (forall j o, answer_at C endpoint requestBody (requests w0) tokens j = Some o ->
               succeeds o = false) ->
  let run := fetchWithTokenRotation C endpoint requestBody logContext
               specificToken w0 in
  let last_index := length tokens - 1 in
  exists (final : Credential) (e : JsError) (earlier : list LogEntry),
    nth_error tokens last_index = Some final /\
    fst run = Threw (ThrownError e) /\
    auditLog (snd run) =
      (auditLog w1 ++ earlier ++
       [entry_attempt logContext last_index (token final);
        entry_failed logContext last_index (err_message e);
        entry_exhausted logContext e])%list.
Proof.
  intros quiet resolved_to nonempty fails run last_index.
  pose proof (resolve_tokens_requests C logContext specificToken w0) as same.
  rewrite resolved_to in same. cbn [snd] in same. rewrite <- same in fails.
  destruct (exists_last nonempty) as (front & final & split).
  assert (last_index = length front) as index
    by (unfold last_index; rewrite split, length_app; cbn; lia).
  destruct (rotate_failing_prefix endpoint logContext requestBody quiet
              (length tokens) front 0 [final] None w1)
    as (errors & _ & _ & walked).
  { intros j o at_j.
    assert (j < length front) as inside.
    { unfold answer_at in at_j.
      destruct (nth_error front j) eqn:E; [| discriminate].
      apply nth_error_Some. congruence. }
    apply (fails j o). rewrite split. now rewrite answer_at_prefix. }
  destruct (settle_failure C (token final)
              (fetch C
                 (requests w1 ++
                  map (fun c => request_for C endpoint requestBody (token c))
                      front)%list
                 (request_for C endpoint requestBody (token final))))
    as [e caught].
  { apply (fails (length front)). rewrite split. apply answer_at_split. }
  exists final, e.
  exists (failures_log logContext (length tokens) 0
            (combine (map token front) errors)).
  split; [rewrite index, split, nth_error_app2, Nat.sub_diag by lia;
          reflexivity |].
  unfold run, fetchWithTokenRotation, bind. rewrite resolved_to.
  replace (length tokens =? 0) with false
    by (symmetry; apply Nat.eqb_neq; rewrite split, length_app; cbn; lia).
  rewrite split in walked |- *. rewrite walked. cbn [Nat.add].
  erewrite rotate_failed_attempt; [| exact quiet | exact caught].
  rewrite (rotate_exhausted _ _ _ quiet).
  cbn [fst snd veoAuthTokens auditLog requests]. unfold failure_entries.
  replace (length front <? length (front ++ [final]) - 1) with false
    by (symmetry; apply Nat.ltb_ge; rewrite length_app; cbn; lia).
  split; [reflexivity |].
  rewrite index. rewrite <- !app_assoc. reflexivity.
Qed.

(* ------------------------------------------------------------------ *)
(** ** The further properties at work on the sample collaborators *)

(** The refresh returns [[B, C]] and [C] is accepted: the result comes from
    candidate 1. *)
Lemma a_returned_result_is_a_successful_answer_witness :
  exists (k : nat) (candidate : Credential) (response : Response),
    nth_error (resolved (sample refresh_B_C no_op_sink) "VEO T2V" None
                 fresh_session) k = Some candidate /\
    resp_ok response = true /\
    resp_json response = inr ok_body /\
    "C" = token candidate.
Proof.
  destruct (@a_returned_result_is_a_successful_answer
              (sample refresh_B_C no_op_sink) "/api/veo/generate-t2v" "VEO T2V"
              JNull None fresh_session
              (snd (fetchWithTokenRotation (sample refresh_B_C no_op_sink)
                      "/api/veo/generate-t2v" JNull "VEO T2V" None
                      fresh_session))
              (mkResult ok_body "C") eq_refl)
    as (k & candidate & response & at_k & _ & ok & parsed & used & _).
  exists k, candidate, response. repeat split; assumption.
Defined.

(** The refresh returns [[B, C]]; [B] is out of reach and [C] is accepted:
    the second way, with [k = 1]. *)
Lemma a_dispatch_ends_in_one_of_three_ways_witness :
  let C := sample refresh_B_C no_op_sink in
  let run := fetchWithTokenRotation C "/api/veo/generate-t2v" JNull "VEO T2V"
               None fresh_session in
  resolved C "VEO T2V" None fresh_session = [credential_B; credential_C] /\
  fst run = Returned (mkResult ok_body "C") /\
  exists (k : nat) (candidate : Credential) (response : Response)
         (body : JsonValue),
    nth_error [credential_B; credential_C] k = Some candidate /\
    resp_ok response = true /\
    resp_json response = inr body /\
    fst run = Returned (mkResult body (token candidate)).
Proof.
  intros C run. split; [reflexivity |]. split; [reflexivity |].
  destruct (@a_dispatch_ends_in_one_of_three_ways
              (sample refresh_B_C no_op_sink) "/api/veo/generate-t2v" "VEO T2V"
              JNull None fresh_session)
    as [(none & _) | [(k & candidate & response & body & at_k & _ & ok & parsed
                       & _ & returned & _)
                     | (_ & _ & final & last_answer & e & _ & _ & _ & thrown & _)]].
  - intros history entry. reflexivity.
  - discriminate none.
  - exists k, candidate, response, body. repeat split; assumption.
  - discriminate thrown.
Defined.

(** The cache holds [{not json] and the refresh throws an [Error]. *)
Lemma a_failed_refresh_is_logged_and_swallowed_witness :
  fetchWithTokenRotation (sample refresh_down no_op_sink)
    "/api/veo/generate-t2v" JNull "VEO T2V" None
    (mkWorld (Some "{not json") [] [])
  = (Threw (ThrownError (no_tokens_error "VEO T2V")),
     mkWorld (Some "{not json")
       ([] ++
        [entry_session_empty "VEO T2V";
         mkLogEntry "VEO T2V" "Auth Token Refresh"
           ("Failed to re-fetch tokens: " ++ "database unreachable") 0 Error
           (Some "database unreachable")])%list
       []).
Proof.
  apply (@a_failed_refresh_is_logged_and_swallowed
           (sample refresh_down no_op_sink) "/api/veo/generate-t2v" "VEO T2V"
           JNull None (mkWorld (Some "{not json") [] [])
           (ThrownError (mkError "Error" "database unreachable"))).
  - intros history entry. reflexivity.
  - reflexivity.
  - apply cache_malformed. reflexivity.
  - reflexivity.
Defined.

(** The sink fails on [Successfully re-fetched 2 tokens.] and on nothing
    else. *)
Lemma a_sink_failure_inside_the_refresh_is_caught_witness :
  let thrown := ThrownError (mkError "Error" "log store full") in
  resolve_tokens (sample refresh_B_C (sink_failing_on_refetched thrown))
    "VEO T2V" None fresh_session
  = (Returned [credential_B; credential_C],
     mkWorld (Some "[B,C]")
       ([] ++ [entry_session_empty "VEO T2V";
               entry_refetched "VEO T2V" 2;
               entry_refetch_failed "VEO T2V" thrown])%list
       []).
Proof.
  intros thrown.
  apply (@a_sink_failure_inside_the_refresh_is_caught
           (sample refresh_B_C (sink_failing_on_refetched thrown))
           "VEO T2V" None fresh_session [credential_B; credential_C] thrown).
  - reflexivity.
  - apply cache_missing.
  - reflexivity.
  - discriminate.
  - reflexivity.
  - reflexivity.
  - reflexivity.
Defined.

(** The cache holds [[A, B]]; the refresh, were it called, would throw. *)
Lemma a_usable_cache_is_never_refreshed_witness :
  let C := sample refresh_B_C no_op_sink in
  let w := mkWorld (Some "[A,B]") [] [] in
  usable C (veoAuthTokens w) [credential_A; credential_B] /\
  resolve_tokens C "VEO T2V" None w
    = (Returned [credential_A; credential_B], w) /\
  fetchWithTokenRotation (with_refresh C refresh_down) "/api/veo/generate-t2v"
    JNull "VEO T2V" None w
  = fetchWithTokenRotation C "/api/veo/generate-t2v" JNull "VEO T2V" None w.
Proof.
  intros C w.
  assert (usable C (veoAuthTokens w) [credential_A; credential_B]) as good.
  { exists "[A,B]". repeat split; try reflexivity; discriminate. }
  split; [exact good |].
  destruct (@a_usable_cache_is_never_refreshed C "/api/veo/generate-t2v"
              "VEO T2V" JNull None w [credential_A; credential_B] eq_refl good)
    as [resolved_to same].
  split; [exact resolved_to | apply same].
Defined.

(** A first dispatch refreshes and stores [[B, C]]; a second one, for the
    Imagen endpoint, reads the list back. *)
Lemma a_refreshed_list_serves_the_next_dispatch_witness :
  let C := sample_reading_back refresh_B_C no_op_sink in
  let after := snd (fetchWithTokenRotation C "/api/veo/generate-t2v" JNull
                      "VEO T2V" None fresh_session) in
  resolved C "VEO T2V" None fresh_session = [credential_B; credential_C] /\
  veoAuthTokens after = Some "[B,C]" /\
  resolve_tokens C "IMAGEN" None after
    = (Returned [credential_B; credential_C], after).
Proof.
  apply (@a_refreshed_list_serves_the_next_dispatch
           (sample_reading_back refresh_B_C no_op_sink) "/api/veo/generate-t2v"
           "VEO T2V" JNull None fresh_session [credential_B; credential_C]
           "IMAGEN" None).
  - intros history entry. reflexivity.
  - reflexivity.
  - apply cache_missing.
  - reflexivity.
  - discriminate.
  - discriminate.
  - reflexivity.
  - reflexivity.
Defined.

(** The token [A] pinned, and the token [A] cached with its own
    [createdAt]: neither resolution writes an entry, so both loops start
    from the empty trail. *)
Lemma only_the_token_of_a_credential_counts_witness :
  let C := sample refresh_B_C no_op_sink in
  let run := fetchWithTokenRotation C "/api/veo/generate-t2v" JNull "VEO T2V"
               (Some "A") fresh_session in
  let run' := fetchWithTokenRotation C "/api/veo/generate-t2v" JNull "VEO T2V"
                None (mkWorld (Some "[A]") [] []) in
  fst run = fst run' /\
  auditLog (snd run) = auditLog (snd run') /\
  requests (snd run) = requests (snd run').
Proof.
  apply (@only_the_token_of_a_credential_counts
           (sample refresh_B_C no_op_sink) "/api/veo/generate-t2v" "VEO T2V"
           JNull (Some "A") None
           fresh_session fresh_session
           (mkWorld (Some "[A]") [] []) (mkWorld (Some "[A]") [] [])
           [mkCredential "A" "N/A"] [credential_A]);
    reflexivity.
Defined.

(** The cached list [[A, B]], both failing: the trail ends with attempt 2,
    its failure and the summary. *)
Lemma the_trail_of_an_exhausted_dispatch_ends_with_the_last_failure_witness :
  let C := sample refresh_B_C no_op_sink in
  let w := mkWorld (Some "[A,B]") [] [] in
  let run := fetchWithTokenRotation C "/api/veo/generate-t2v" JNull "VEO T2V"
               None w in
  exists (final : Credential) (e : JsError) (earlier : list LogEntry),
    nth_error [credential_A; credential_B] 1 = Some final /\
    fst run = Threw (ThrownError e) /\
    auditLog (snd run) =
      (auditLog w ++ earlier ++
       [entry_attempt "VEO T2V" 1 (token final);
        entry_failed "VEO T2V" 1 (err_message e);
        entry_exhausted "VEO T2V" e])%list.
Proof.
  apply (@the_trail_of_an_exhausted_dispatch_ends_with_the_last_failure
           (sample refresh_B_C no_op_sink) "/api/veo/generate-t2v" "VEO T2V"
           JNull None (mkWorld (Some "[A,B]") [] [])
           (mkWorld (Some "[A,B]") [] []) [credential_A; credential_B]).
  - intros history entry. reflexivity.
  - reflexivity.
  - discriminate.
  - intros j o at_j. destruct j as [| [| [| j]]];
      try discriminate at_j; injection at_j as <-; reflexivity.
Defined.
